(** * Math Village: the progression / lock engine of the App component

    A shallow embedding of the state logic of [src/components/Screens.tsx]
    (the [App] component's [addEmeralds], [completeGame], [startGame],
    [resetProgress] and [buyItem], the rating expressions of [TestSelection]
    and [GameScreen], and [GameScreen]'s [handleAnswer]), of the types of the
    repository's [types] module and of [src/constants.tsx].

    Conventions of the embedding.
    - A JavaScript [number] that holds a count, a score or an amount is a [Z];
      [Math.floor (x / 10)] on such a number is [x / 10] ([Z.div] rounds
      towards minus infinity, as [Math.floor] does).
    - A [Record<string, T>] is a [gmap string T]; reading a key that is not
      there gives [None] (JavaScript's [undefined]).
    - [setState (prev => ...)] enqueues an updater, a function from the
      previous [AppState] to the next one; updaters run in the order in which
      they were enqueued, each on the result of the one before. *)

From stdpp Require Import gmap strings list fin_maps.
From Stdlib Require Import ZArith Lia.

Local Open Scope Z_scope.

(** ** Types (the [types] module) *)

Inductive GameType := MAKE_TEN | NUMBER_HOP | DOUBLES | COUNT_UP.

Inductive PlayMode := TIMED | FREE | STREAK.

Inductive MasteryRating := Diamond | Iron | Wood.

Inductive Ops := plus | minus | mixed.

Inductive OneHandedMode := hand_off | hand_left | hand_right.

Inductive View := hub | game | results | shop | parent | test_select.

#[global] Instance GameType_eq_dec : EqDecision GameType.
Proof. solve_decision. Defined.

#[global] Instance PlayMode_eq_dec : EqDecision PlayMode.
Proof. solve_decision. Defined.

#[global] Instance MasteryRating_eq_dec : EqDecision MasteryRating.
Proof. solve_decision. Defined.

(** The string each member of the [GameType] enum stands for; it is the key
    under which the per-game records of [AppState] are read and written. *)
Definition GameType_key (t : GameType) : string :=
  match t with
  | MAKE_TEN => "MAKE_TEN"
  | NUMBER_HOP => "NUMBER_HOP"
  | DOUBLES => "DOUBLES"
  | COUNT_UP => "COUNT_UP"
  end.

Record TestResult := mkTestResult {
  score : Z;
  rating : MasteryRating;
  time : Z;
  gameType : GameType
}.

Record AppState := mkAppState {
  emeralds : Z;
  xp : Z;
  level : Z;
  testScores : gmap string Z;
  unlockedItems : list string;
  equippedItem : string;
  hearts : Z;
  successCounts : gmap string Z;
  isLocked : gmap string bool;
  otherSuccessesSinceLock : gmap string Z;
  currentPlayMode : PlayMode;
  streak : Z
}.

Record Settings := mkSettings {
  range : Z;
  ops : Ops;
  sessionTimer : Z;
  testTimer : Z;
  soundOn : bool;
  oneHandedMode : OneHandedMode;
  assistMode : bool
}.

(** ** JavaScript idioms used by the handlers *)

(** [x || 0] on a number read from a record: [undefined] and [0] give [0]. *)
Definition or0 (x : option Z) : Z := default 0 x.

(** Truthiness of a boolean read from a record: [undefined] is falsy. *)
Definition truthy (x : option bool) : bool := default false x.

(** [x >= n] on a number read from a record: [undefined >= n] is [false]. *)
Definition num_ge (x : option Z) (n : Z) : bool :=
  match x with
  | Some v => v >=? n
  | None => false
  end.

(** [Object.keys o]. JavaScript lists the keys in insertion order, the map in
    an order of its own; [forEach_order_irrelevant] below shows that the loop
    of [completeGame] gives the same records for every order. *)
Definition Object_keys {A} (o : gmap string A) : list string :=
  (map_to_list o).*1.

(** [items.includes(itemId)]. *)
Definition includes (itemId : string) (items : list string) : bool :=
  bool_decide (itemId ∈ items).

(** ** Constants ([src/constants.tsx]) *)

Definition INITIAL_STATE : AppState :=
  {| emeralds := 0;
     xp := 0;
     level := 1;
     testScores := ∅;
     unlockedItems := ["base-char"%string];
     equippedItem := "base-char";
     hearts := 3;
     successCounts :=
       <["MAKE_TEN"%string := 0]> (<["NUMBER_HOP"%string := 0]>
         (<["DOUBLES"%string := 0]> (<["COUNT_UP"%string := 0]> ∅)));
     isLocked :=
       <["MAKE_TEN"%string := false]> (<["NUMBER_HOP"%string := false]>
         (<["DOUBLES"%string := false]> (<["COUNT_UP"%string := false]> ∅)));
     otherSuccessesSinceLock :=
       <["MAKE_TEN"%string := 0]> (<["NUMBER_HOP"%string := 0]>
         (<["DOUBLES"%string := 0]> (<["COUNT_UP"%string := 0]> ∅)));
     currentPlayMode := TIMED;
     streak := 0 |}.

Definition INITIAL_SETTINGS : Settings :=
  {| range := 10;
     ops := plus;
     sessionTimer := 5;
     testTimer := 60;
     soundOn := true;
     oneHandedMode := hand_off;
     assistMode := false |}.

(** [SHOP_ITEMS]: the id and the price of each item (name and icon are
    display only). *)
Definition SHOP_ITEMS : list (string * Z) :=
  [("wood-tile"%string, 10); ("stone-tile"%string, 25); ("steve"%string, 50);
   ("zombie"%string, 100); ("creeper"%string, 200);
   ("diamond-block"%string, 500)].

(** ** Mastery rating *)

(** [TestSelection], line 303:
    [score >= 90 ? 'Diamond' : score >= 75 ? 'Iron' : 'Wood']. *)
Definition TestSelection_rating (score : Z) : MasteryRating :=
  if score >=? 90 then Diamond else if score >=? 75 then Iron else Wood.

(** [TestSelection], lines 302-303: the score and the rating shown for a
    test, [scores[t.type] || 0] and its rating. *)
Definition TestSelection_row (scores : gmap string Z) (t : GameType)
  : Z * MasteryRating :=
  let score := or0 (scores !! GameType_key t) in
  (score, TestSelection_rating score).

(** [GameScreen], line 683: the rating stored in a test's result,
    [score >= 90 ? 'Diamond' : 'Wood']. *)
Definition GameScreen_rating (score : Z) : MasteryRating :=
  if score >=? 90 then Diamond else Wood.

(** ** GameScreen: [handleAnswer] *)

(** The component state of a [GameScreen]. The interval that counts
    [timeLeft] down is left out: [timeLeft] only shows in the [time] of a
    result. *)
Record GameScreenState := mkGameScreenState {
  qIndex : Z;
  correctCount : Z;
  gs_hearts : Z;
  timeLeft : Z
}.

(** The initial component state of a [GameScreen]. *)
Definition GameScreen_init (mode : PlayMode) (isTest : bool)
    (settings : Settings) : GameScreenState :=
  {| qIndex := 0;
     correctCount := 0;
     gs_hearts := if decide (mode = STREAK) then 3 else 99;
     timeLeft := if isTest then testTimer settings
                 else sessionTimer settings * 60 |}.

(** [finalResult], lines 682-684. The score [(nextCorrect / 10) * 100] is
    a double. For the counts 0 to 10, and in the practice branch, it is the
    integer written here. For larger counts the double can miss ten times
    the count by one unit in the last place, in either direction: 11 gives
    110.00000000000001, and 23 gives 229.99999999999997, whose
    [Math.floor (score / 10)] is 22 and not 23. The double of a count of 10
    or more is never below 100, so the comparisons with 90 and 75, and with
    them the rating, are those of the integer for every count. *)
Definition finalResult (isTest : bool) (settings : Settings)
    (nextCorrect timeLeft : Z) (type : GameType) : TestResult :=
  if isTest then
    {| score := nextCorrect * 10;
       rating := GameScreen_rating (nextCorrect * 10);
       time := testTimer settings - timeLeft;
       gameType := type |}
  else
    {| score := 100; rating := Diamond; time := 0; gameType := type |}.

(** What one answer makes the screen do besides updating its own state:
    hand a result to [onComplete], schedule [onQuit], or neither. *)
Inductive AnswerEffect :=
| NoEffect
| OnComplete (r : TestResult)
| OnQuit.

Definition handleAnswer (type : GameType) (mode : PlayMode) (isTest : bool)
    (settings : Settings) (correct : bool) (g : GameScreenState)
  : GameScreenState * AnswerEffect :=
  if correct then
    let nextCorrect := correctCount g + 1 in
    let isFinished :=
      (isTest && (qIndex g + 1 >=? 10))
      || (bool_decide (mode = STREAK) && (nextCorrect >=? 20)) in
    if isFinished then
      ({| qIndex := qIndex g; correctCount := nextCorrect;
          gs_hearts := gs_hearts g; timeLeft := timeLeft g |},
       OnComplete (finalResult isTest settings nextCorrect (timeLeft g) type))
    else
      ({| qIndex := qIndex g + 1; correctCount := nextCorrect;
          gs_hearts := gs_hearts g; timeLeft := timeLeft g |},
       NoEffect)
  else if decide (mode = STREAK) then
    ({| qIndex := qIndex g; correctCount := correctCount g;
        gs_hearts := gs_hearts g - 1; timeLeft := timeLeft g |},
     if gs_hearts g <=? 1 then OnQuit else NoEffect)
  else (g, NoEffect).

(** A run of answers from a given screen state: the final state and the
    results handed to [onComplete], oldest first. *)
Fixpoint GameScreen_run (type : GameType) (mode : PlayMode) (isTest : bool)
    (settings : Settings) (answers : list bool) (g : GameScreenState)
  : GameScreenState * list TestResult :=
  match answers with
  | [] => (g, [])
  | correct :: rest =>
      let '(g', eff) := handleAnswer type mode isTest settings correct g in
      let '(g'', rs) := GameScreen_run type mode isTest settings rest g' in
      (g'', match eff with OnComplete r => r :: rs | _ => rs end)
  end.

(** ** App: the state updaters *)

(** The updater [addEmeralds] enqueues, lines 839-844. *)
Definition addEmeralds_update (amount : Z) (prev : AppState) : AppState :=
  {| emeralds := emeralds prev + amount;
     xp := xp prev + amount * 5;
     level := (xp prev + amount * 5) / 100 + 1;
     testScores := testScores prev;
     unlockedItems := unlockedItems prev;
     equippedItem := equippedItem prev;
     hearts := hearts prev;
     successCounts := successCounts prev;
     isLocked := isLocked prev;
     otherSuccessesSinceLock := otherSuccessesSinceLock prev;
     currentPlayMode := currentPlayMode prev;
     streak := streak prev |}.

(** The three records the practice branch of [completeGame] builds and then
    mutates in its loop. *)
Record Ledger := mkLedger {
  newLocks : gmap string bool;
  newCounts : gmap string Z;
  newUnlockCounters : gmap string Z
}.

(** The body of the [forEach] of lines 866-875, for one [gameKey]. *)
Definition forEach_body (type : string) (l : Ledger) (gameKey : string)
  : Ledger :=
  if truthy (newLocks l !! gameKey) && negb (bool_decide (gameKey = type))
  then
    let counters :=
      <[gameKey := or0 (newUnlockCounters l !! gameKey) + 1]>
        (newUnlockCounters l) in
    if num_ge (counters !! gameKey) 3 then
      {| newLocks := <[gameKey := false]> (newLocks l);
         newCounts := <[gameKey := 0]> (newCounts l);
         newUnlockCounters := <[gameKey := 0]> counters |}
    else
      {| newLocks := newLocks l;
         newCounts := newCounts l;
         newUnlockCounters := counters |}
  else l.

(** Lines 860-865: the records as they are when the loop starts. *)
Definition practice_ledger (type : string) (prev : AppState) : Ledger :=
  let counts :=
    <[type := or0 (successCounts prev !! type) + 1]> (successCounts prev) in
  {| newLocks := if num_ge (counts !! type) 5
                 then <[type := true]> (isLocked prev)
                 else isLocked prev;
     newCounts := counts;
     newUnlockCounters := otherSuccessesSinceLock prev |}.

(** Lines 860-875 with the keys to visit given: the loop runs over the keys
    [Object.keys(newLocks)] had when it started. *)
Definition practice_loop (type : string) (keys : list string)
    (prev : AppState) : Ledger :=
  foldl (forEach_body type) (practice_ledger type prev) keys.

(** The updater [completeGame] enqueues, lines 850-882. *)
Definition completeGame_update (isTestMode : bool) (result : TestResult)
    (prev : AppState) : AppState :=
  let type := GameType_key (gameType result) in
  if isTestMode then
    let currentBest := or0 (testScores prev !! type) in
    if score result >=? currentBest then
      {| emeralds := emeralds prev;
         xp := xp prev;
         level := level prev;
         testScores := <[type := score result]> (testScores prev);
         unlockedItems := unlockedItems prev;
         equippedItem := equippedItem prev;
         hearts := hearts prev;
         successCounts := successCounts prev;
         isLocked := isLocked prev;
         otherSuccessesSinceLock := otherSuccessesSinceLock prev;
         currentPlayMode := currentPlayMode prev;
         streak := streak prev |}
    else prev
  else
    let l :=
      practice_loop type (Object_keys (newLocks (practice_ledger type prev)))
        prev in
    {| emeralds := emeralds prev;
       xp := xp prev;
       level := level prev;
       testScores := testScores prev;
       unlockedItems := unlockedItems prev;
       equippedItem := equippedItem prev;
       hearts := hearts prev;
       successCounts := newCounts l;
       isLocked := newLocks l;
       otherSuccessesSinceLock := newUnlockCounters l;
       currentPlayMode := currentPlayMode prev;
       streak := streak prev |}.

(** The updaters one call of [completeGame] enqueues, in order: its own
    (line 850) and then the one of [addEmeralds] (line 884). *)
Definition completeGame_updates (isTestMode : bool) (result : TestResult)
  : list (AppState → AppState) :=
  [completeGame_update isTestMode result;
   addEmeralds_update (score result / 10)].

(** [buyItem], lines 904-915. The guards read [state], the state of the
    render in which the click is handled, and the updater then runs on that
    same state. *)
Definition buyItem_updates (price : Z) (itemId : string) (state : AppState)
  : list (AppState → AppState) :=
  if (emeralds state >=? price) && negb (includes itemId (unlockedItems state))
  then
    [λ prev,
      {| emeralds := emeralds prev - price;
         xp := xp prev;
         level := level prev;
         testScores := testScores prev;
         unlockedItems := unlockedItems prev ++ [itemId];
         equippedItem := itemId;
         hearts := hearts prev;
         successCounts := successCounts prev;
         isLocked := isLocked prev;
         otherSuccessesSinceLock := otherSuccessesSinceLock prev;
         currentPlayMode := currentPlayMode prev;
         streak := streak prev |}]
  else if includes itemId (unlockedItems state) then
    [λ prev,
      {| emeralds := emeralds prev;
         xp := xp prev;
         level := level prev;
         testScores := testScores prev;
         unlockedItems := unlockedItems prev;
         equippedItem := itemId;
         hearts := hearts prev;
         successCounts := successCounts prev;
         isLocked := isLocked prev;
         otherSuccessesSinceLock := otherSuccessesSinceLock prev;
         currentPlayMode := currentPlayMode prev;
         streak := streak prev |}]
  else [].

(** [resetProgress], lines 896-902, once the dialog is confirmed. *)
Definition resetProgress_updates : list (AppState → AppState) :=
  [λ _, INITIAL_STATE].

(** The state after each updater of a queue, in order. *)
Fixpoint snapshots (updates : list (AppState → AppState)) (st : AppState)
  : list AppState :=
  match updates with
  | [] => []
  | u :: rest => u st :: snapshots rest (u st)
  end.

(** The state once the whole queue has run. *)
Definition apply_updates (updates : list (AppState → AppState))
    (st : AppState) : AppState :=
  foldl (λ s u, u s) st updates.

(** ** App: what the user and the game screen can make it do *)

Inductive Event :=
| Complete (isTestMode : bool) (result : TestResult)
| Buy (price : Z) (itemId : string)
| Reset.

Definition updates_of (e : Event) (st : AppState)
  : list (AppState → AppState) :=
  match e with
  | Complete isTestMode result => completeGame_updates isTestMode result
  | Buy price itemId => buyItem_updates price itemId st
  | Reset => resetProgress_updates
  end.

Definition handle (e : Event) (st : AppState) : AppState :=
  apply_updates (updates_of e st) st.

Definition completeGame (isTestMode : bool) (result : TestResult)
    (st : AppState) : AppState :=
  handle (Complete isTestMode result) st.

Definition buyItem (price : Z) (itemId : string) (st : AppState) : AppState :=
  handle (Buy price itemId) st.

Definition run (events : list Event) (st : AppState) : AppState :=
  foldl (λ s e, handle e s) st events.

(** The events the App is handed: a result carries a score that is not
    negative, as every result of a [GameScreen] session does
    ([GameScreen_results_valid]). *)
Definition valid_event (e : Event) : Prop :=
  match e with
  | Complete _ result => 0 ≤ score result
  | _ => True
  end.

(** The states the App's progress can take, every value between two updaters
    of one handler included. *)
Inductive reachable : AppState → Prop :=
| reachable_init : reachable INITIAL_STATE
| reachable_step st e st' :
    reachable st → valid_event e → st' ∈ snapshots (updates_of e st) st →
    reachable st'.

(** The part of the App component that [startGame] reads and writes. *)
Record App := mkApp {
  state : AppState;
  currentView : View;
  activeGame : option GameType;
  playMode : PlayMode;
  isTestMode : bool;
  lastGameResult : option TestResult
}.

(** [startGame], lines 888-894. *)
Definition startGame (type : GameType) (mode : PlayMode) (test : bool)
    (app : App) : App :=
  if negb test && truthy (isLocked (state app) !! GameType_key type) then app
  else
    {| state := state app;
       currentView := game;
       activeGame := Some type;
       playMode := mode;
       isTestMode := test;
       lastGameResult := lastGameResult app |}.


(** A practice result for a game, as [GameScreen] builds it. *)
Definition practice_result (type : GameType) : TestResult :=
  finalResult false INITIAL_SETTINGS 20 0 type.

(** Clamping a score to 0..100, the step C9 speaks of. No handler calls
    it; it is here to compare what the code computes with what clamping
    would give. *)
Definition clamp_score (s : Z) : Z := Z.max 0 (Z.min 100 s).

(** What the three records of a [Ledger] hold for one key. *)
Definition entry (l : Ledger) (k : string)
  : option bool * option Z * option Z :=
  (newLocks l !! k, newCounts l !! k, newUnlockCounters l !! k).

(** What one visit of the loop does to the entry of the key it visits. *)
Definition entry_step (type k : string)
    (e : option bool * option Z * option Z)
  : option bool * option Z * option Z :=
  let '(locked, count, counter) := e in
  if truthy locked && negb (bool_decide (k = type)) then
    if or0 counter + 1 >=? 3 then (Some false, Some 0, Some 0)
    else (locked, count, Some (or0 counter + 1))
  else e.

(** The entry of a key in the three per-game records of a state. *)
Definition state_entry (st : AppState) (k : string)
  : option bool * option Z * option Z :=
  (isLocked st !! k, successCounts st !! k, otherSuccessesSinceLock st !! k).

(** ** The lock engine over the four games *)

(** The members of the [GameType] enum. *)
Definition games : list GameType := [MAKE_TEN; NUMBER_HOP; DOUBLES; COUNT_UP].

(** The shape the entry of a key has in the three per-game records of a
    state the App reaches: a game has its lock, its count and its counter
    of other successes, locked exactly from a count of 5 on, the counter
    below 3 and at 0 while the game is not locked; any other key has no
    entry. *)
Definition key_ok (k : string) (e : option bool * option Z * option Z)
  : Prop :=
  match e with
  | (Some locked, Some count, Some counter) =>
      k ∈ GameType_key <$> games
      ∧ 0 ≤ count
      ∧ (locked = true ↔ 5 ≤ count)
      ∧ (locked = false → counter = 0)
      ∧ 0 ≤ counter ≤ 2
  | (None, None, None) => k ∉ GameType_key <$> games
  | _ => False
  end.

Definition ledger_ok (st : AppState) : Prop :=
  ∀ k, key_ok k (state_entry st k).

(** A game that is locked with at most [j] other successes counted. *)
Definition locked_within (j : Z) (st : AppState) (t : GameType) : bool :=
  truthy (isLocked st !! GameType_key t)
  && (or0 (otherSuccessesSinceLock st !! GameType_key t) <=? j).

(** How many practice completions of a game a sequence of events holds. *)
Definition is_practice_of (v : GameType) (e : Event) : bool :=
  match e with
  | Complete false result => bool_decide (gameType result = v)
  | _ => false
  end.

Definition practice_count (v : GameType) (events : list Event) : Z :=
  Z.of_nat (length (filter (λ e, is_practice_of v e = true) events)).

(** At most [j + 1] games are locked with at most [j] other successes
    counted, for every [j] from 0 on. *)
Definition few_locked (st : AppState) : Prop :=
  ∀ j, 0 ≤ j →
    Z.of_nat (length (filter (λ t, locked_within j st t = true) games))
    ≤ j + 1.

(** ** The shop *)

(** The price [SHOP_ITEMS] gives an item; an item it does not list, such as
    the ["base-char"] every state owns, costs nothing. *)
Definition price_of (itemId : string) : Z :=
  default 0 ((list_to_map SHOP_ITEMS : gmap string Z) !! itemId).

(** What the owned items cost together. *)
Definition owned_value (st : AppState) : Z :=
  foldr (λ itemId total, price_of itemId + total) 0 (unlockedItems st).

(** The events as [ShopScreen] raises them: [onBuy(item.price, item.id)]
    for an item of [SHOP_ITEMS] (line 752). *)
Definition shop_event (e : Event) : Prop :=
  match e with
  | Buy price itemId => (itemId, price) ∈ SHOP_ITEMS
  | _ => True
  end.

(** The text under an item of [ShopScreen], line 756. *)
Inductive ShopLabel :=
| EQUIPPED
| USE_NOW
| PriceTag (price : Z).

Definition ShopScreen_label (unlockedItems : list string)
    (equippedItem : string) (item : string * Z) : ShopLabel :=
  if includes item.1 unlockedItems then
    if bool_decide (equippedItem = item.1) then EQUIPPED else USE_NOW
  else PriceTag item.2.

(** ** What the screens derive from the state *)

(** [Object.values o]. *)
Definition Object_values {A} (o : gmap string A) : list A :=
  (map_to_list o).*2.

(** [renderContent], line 926: the [hasDiamondSword] handed to
    [TestSelection]. *)
Definition hasDiamondSword (st : AppState) : bool :=
  forallb (λ s, s >=? 90) (Object_values (testScores st))
  && (Z.of_nat (length (Object_keys (testScores st))) >=? 4).

(** [Hub], line 263: [!!lockedGames[tile.type]]; the tile's button is
    disabled when it is true and calls [onStartGame(tile.type, mode)], that
    is [startGame(tile.type, mode)], when it is clicked. *)
Definition Hub_tile_locked (lockedGames : gmap string bool) (t : GameType)
  : bool :=
  truthy (lockedGames !! GameType_key t).


(** ** GameScreen: a whole session *)

(** One run of the interval of lines 652-659:
    [setTimeLeft(prev => prev > 0 ? prev - 1 : 0)]. *)
Definition tick (g : GameScreenState) : GameScreenState :=
  {| qIndex := qIndex g;
     correctCount := correctCount g;
     gs_hearts := gs_hearts g;
     timeLeft := if timeLeft g >? 0 then timeLeft g - 1 else 0 |}.

(** Lines 653-657: the interval is set for a practice session in the TIMED
    mode and for every test. *)
Definition timer_runs (mode : PlayMode) (isTest : bool) : bool :=
  (negb isTest && bool_decide (mode = TIMED)) || isTest.

(** What happens to a screen: an answer comes in from [GameLogic], or a
    second passes. *)
Inductive ScreenInput :=
| Answer (correct : bool)
| Tick.

#[global] Instance ScreenInput_eq_dec : EqDecision ScreenInput.
Proof. solve_decision. Defined.

Definition GameScreen_input (type : GameType) (mode : PlayMode)
    (isTest : bool) (settings : Settings) (i : ScreenInput)
    (g : GameScreenState) : GameScreenState * AnswerEffect :=
  match i with
  | Answer correct => handleAnswer type mode isTest settings correct g
  | Tick => (if timer_runs mode isTest then tick g else g, NoEffect)
  end.

(** A session: the final screen state and the effect of every input, in
    order. *)
Fixpoint GameScreen_play (type : GameType) (mode : PlayMode) (isTest : bool)
    (settings : Settings) (inputs : list ScreenInput) (g : GameScreenState)
  : GameScreenState * list AnswerEffect :=
  match inputs with
  | [] => (g, [])
  | i :: rest =>
      let step := GameScreen_input type mode isTest settings i g in
      let played := GameScreen_play type mode isTest settings rest step.1 in
      (played.1, step.2 :: played.2)
  end.

(** The results among the effects, and the number of [onQuit]s. *)
Definition results_of (effects : list AnswerEffect) : list TestResult :=
  omap (λ e, match e with OnComplete r => Some r | _ => None end) effects.

Definition is_quit (e : AnswerEffect) : bool :=
  match e with OnQuit => true | _ => false end.

Definition quits_of (effects : list AnswerEffect) : Z :=
  Z.of_nat (length (filter (λ e, is_quit e = true) effects)).

(** The numbers of correct and of wrong answers among the inputs. *)
Definition correct_answers (inputs : list ScreenInput) : Z :=
  Z.of_nat (length (filter (λ i, i = Answer true) inputs)).

Definition wrong_answers (inputs : list ScreenInput) : Z :=
  Z.of_nat (length (filter (λ i, i = Answer false) inputs)).

(** The number of seconds that pass among the inputs. *)
Definition ticks (inputs : list ScreenInput) : Z :=
  Z.of_nat (length (filter (λ i, i = Tick) inputs)).

(** ** GameLogic: the questions and the answer handlers *)

#[global] Instance Ops_eq_dec : EqDecision Ops.
Proof. solve_decision. Defined.

(** The [question] object, one shape for each game. *)
Inductive Question :=
| MakeTenQ (have need : Z)
| DoublesQ (a b ans : Z)
| NumberHopQ (start jump target : Z) (isSub : bool)
| CountUpQ (start end_ ans : Z).

(** The component state of a [GameLogic] that the handlers read and write
    ([shake] and [currentIcon] only concern the display). [userInput] is
    [null] until a question sets it. *)
Record LogicState := mkLogicState {
  question : option Question;
  userInput : option Z;
  hopsLeft : Z;
  choices : list Z;
  showLocalTen : bool
}.

Definition LogicState_init : LogicState :=
  {| question := None; userInput := None; hopsLeft := 0; choices := [];
     showLocalTen := false |}.

(** The random draws one call of [generateQuestion] makes. A draw
    [Math.floor(Math.random() * n)] is the integer it gives, from 0 to
    [n - 1]; a comparison [Math.random() > x] is its outcome; the shuffle
    [sort(() => Math.random() - 0.5)] is the rearrangement it makes. *)
Record Draws := mkDraws {
  draw_have : Z;
  draw_double : Z;
  draw_near : bool;
  draw_up : bool;
  draw_sub : bool;
  draw_start : Z;
  draw_jump : Z;
  draw_end : Z;
  draw_back : Z;
  draw_extras : list Z;
  shuffle : list Z → list Z
}.

(** [list.includes(x)] on numbers. *)
Definition includes_num (x : Z) (l : list Z) : bool := bool_decide (x ∈ l).

(** [Array.from(new Set(l))]: the first occurrence of every value, in
    order. *)
Definition Set_from (l : list Z) : list Z :=
  foldl (λ seen x, if includes_num x seen then seen else seen ++ [x]) [] l.

(** The loop [while (list.length < 3) { extra = draw; if
    (!list.includes(extra)) list.push(extra) }], on the draws it is given;
    it stops early only if they run out. *)
Fixpoint fill_choices (extras : list Z) (found : list Z) : list Z :=
  if Z.of_nat (length found) <? 3 then
    match extras with
    | [] => found
    | extra :: rest =>
        fill_choices rest
          (if includes_num extra found then found else found ++ [extra])
    end
  else found.

(** [generateQuestion], lines 335-404. *)
Definition generateQuestion (type : GameType) (settings : Settings)
    (draws : Draws) (s : LogicState) : LogicState :=
  match type with
  | MAKE_TEN =>
      let have := draw_have draws + 1 in
      let need := 10 - have in
      let finalChoices :=
        fill_choices (draw_extras draws)
          (Set_from [need; Z.max 0 (need + 1); Z.max 0 (need - 1)]) in
      {| question := Some (MakeTenQ have need);
         userInput := Some have;
         hopsLeft := hopsLeft s;
         choices := shuffle draws finalChoices;
         showLocalTen := false |}
  | DOUBLES =>
      let d := draw_double draws + 1 in
      let near :=
        if bool_decide (ops settings = mixed) && draw_near draws
        then (if draw_up draws then 1 else -1)
        else 0 in
      let ans := d + d + near in
      let choiceList :=
        fill_choices (draw_extras draws)
          (Set_from [ans; ans + 1; Z.max 0 (ans - 1)]) in
      {| question := Some (DoublesQ d (d + near) ans);
         userInput := userInput s;
         hopsLeft := hopsLeft s;
         choices := shuffle draws choiceList;
         showLocalTen := false |}
  | NUMBER_HOP =>
      let isSub :=
        if bool_decide (ops settings = mixed) then draw_sub draws
        else bool_decide (ops settings = minus) in
      let start := if isSub then draw_start draws + 3 else draw_start draws in
      let jump := draw_jump draws + 1 in
      let target := if isSub then start - jump else start + jump in
      {| question := Some (NumberHopQ start jump target isSub);
         userInput := Some start;
         hopsLeft := jump;
         choices := choices s;
         showLocalTen := false |}
  | COUNT_UP =>
      let end_ :=
        draw_end draws + (if bool_decide (range settings = 10) then 3 else 12)
      in
      let base := Z.max 0 (end_ - (draw_back draws + 2)) in
      {| question := Some (CountUpQ base end_ (end_ - base));
         userInput := Some base;
         hopsLeft := hopsLeft s;
         choices := choices s;
         showLocalTen := false |}
  end.

(** The bounds of the draws [generateQuestion] makes for a game: the
    arguments of its [Math.random() * n]. *)
Definition draws_in_range (type : GameType) (settings : Settings)
    (draws : Draws) : Prop :=
  (∀ l, shuffle draws l ≡ₚ l)
  ∧ match type with
    | MAKE_TEN => 0 ≤ draw_have draws < 8
    | DOUBLES => 0 ≤ draw_double draws < range settings / 2
    | NUMBER_HOP =>
        0 ≤ draw_start draws < range settings - 3
        ∧ if (if bool_decide (ops settings = mixed) then draw_sub draws
              else bool_decide (ops settings = minus))
          then 0 ≤ draw_jump draws < draw_start draws + 3
          else 0 ≤ draw_jump draws
               < range settings - draw_start draws - 1
    | COUNT_UP => 0 ≤ draw_end draws < 8 ∧ 0 ≤ draw_back draws < 5
    end.

(** [question.need] and [question.ans]: [undefined] on a question that has
    no such field. *)
Definition question_need (q : Question) : option Z :=
  match q with MakeTenQ _ need => Some need | _ => None end.

Definition question_ans (q : Question) : option Z :=
  match q with
  | DoublesQ _ _ ans => Some ans
  | CountUpQ _ _ ans => Some ans
  | _ => None
  end.

(** [handleChoice], lines 410-432: the new state and the argument of
    [onAnswer]. The handlers below are reached from buttons that exist only
    once there is a question. *)
Definition handleChoice (type : GameType) (val : Z) (s : LogicState)
  : LogicState * option bool :=
  match question s with
  | None => (s, None)
  | Some q =>
      if bool_decide (type = MAKE_TEN) then
        if bool_decide (Some val = question_need q) then
          ({| question := question s; userInput := Some 10;
              hopsLeft := hopsLeft s; choices := choices s;
              showLocalTen := true |}, Some true)
        else (s, Some false)
      else if bool_decide (Some val = question_ans q) then (s, Some true)
      else (s, Some false)
  end.

(** [handleHop], lines 434-456, for the NUMBER_HOP question its buttons are
    rendered with. *)
Definition handleHop (jumpVal : Z) (s : LogicState)
  : LogicState * option bool :=
  match question s with
  | Some (NumberHopQ start jump target isSub) =>
      let actualJump := if isSub then - jumpVal else jumpVal in
      if hopsLeft s <? jumpVal then (s, None)
      else
        let nextPos := or0 (userInput s) + actualJump in
        let s' :=
          {| question := question s; userInput := Some nextPos;
             hopsLeft := hopsLeft s - jumpVal; choices := choices s;
             showLocalTen := showLocalTen s |} in
        if hopsLeft s - jumpVal =? 0 then
          (s', Some (bool_decide (nextPos = target)))
        else (s', None)
  | _ => (s, None)
  end.

(** The reset of NUMBER_HOP: the button of line 592, and the timeout a wrong
    hop sets (lines 448-452). *)
Definition resetHop (s : LogicState) : LogicState :=
  match question s with
  | Some (NumberHopQ start jump target isSub) =>
      {| question := question s; userInput := Some start; hopsLeft := jump;
         choices := choices s; showLocalTen := showLocalTen s |}
  | _ => s
  end.

(** [handleRescueHop], lines 458-473, for the COUNT_UP question its buttons
    are rendered with. *)
Definition handleRescueHop (jumpVal : Z) (s : LogicState)
  : LogicState * option bool :=
  match question s with
  | Some (CountUpQ start end_ ans) =>
      let nextPos := or0 (userInput s) + jumpVal in
      let s' :=
        {| question := question s; userInput := Some nextPos;
           hopsLeft := hopsLeft s; choices := choices s;
           showLocalTen := showLocalTen s |} in
      if nextPos =? end_ then (s', Some true)
      else if nextPos >? end_ then (s, Some false)
      else (s', None)
  | _ => (s, None)
  end.

(** What the player does in NUMBER_HOP: a hop button or the reset. *)
Inductive HopInput :=
| Hop (jumpVal : Z)
| ResetHop.

(** A run of hops: the final state and every answer reported, in order. *)
Fixpoint hops (inputs : list HopInput) (s : LogicState)
  : LogicState * list bool :=
  match inputs with
  | [] => (s, [])
  | Hop jumpVal :: rest =>
      let step := handleHop jumpVal s in
      let played := hops rest step.1 in
      (played.1, match step.2 with
                 | Some correct => correct :: played.2
                 | None => played.2
                 end)
  | ResetHop :: rest => hops rest (resetHop s)
  end.

(** A run of rescue hops, likewise. *)
Fixpoint rescue_hops (jumps : list Z) (s : LogicState)
  : LogicState * list bool :=
  match jumps with
  | [] => (s, [])
  | jumpVal :: rest =>
      let step := handleRescueHop jumpVal s in
      let played := rescue_hops rest step.1 in
      (played.1, match step.2 with
                 | Some correct => correct :: played.2
                 | None => played.2
                 end)
  end.

(** In NUMBER_HOP the hops made so far are what separates the position
    from the start: the position is the start moved by the hops used. *)
Definition hop_ok (s : LogicState) : Prop :=
  match question s with
  | Some (NumberHopQ start jump target isSub) =>
      target = (if isSub then start - jump else start + jump)
      ∧ or0 (userInput s)
        = (if isSub then start - (jump - hopsLeft s)
           else start + (jump - hopsLeft s))
  | _ => False
  end.

(** In COUNT_UP the position lies between the start and the end. *)
Definition rescue_ok (s : LogicState) : Prop :=
  match question s with
  | Some (CountUpQ start end_ ans) => start ≤ or0 (userInput s) ≤ end_
  | _ => False
  end.

(** ** FeedbackOverlay: the message to show *)

(** Lines 182-184: the index of the next message, from a draw
    [Math.floor(Math.random() * list.length)] and the index shown last. *)
Definition nextMessageIndex (draw lastIndex len : Z) : Z :=
  if draw =? lastIndex then (draw + 1) mod len else draw.

(** The order of the tiers: Wood below Iron below Diamond. *)
Definition tier_rank (r : MasteryRating) : Z :=
  match r with Wood => 0 | Iron => 1 | Diamond => 2 end.

(** * Properties *)

(** ** Arithmetic on JavaScript comparisons *)

Ltac case_geb :=
  repeat match goal with
  | |- context [?a >=? ?b] =>
      rewrite (Z.geb_leb a b); destruct (Z.leb_spec b a)
  | H : context [?a >=? ?b] |- _ =>
      rewrite (Z.geb_leb a b) in H; destruct (Z.leb_spec b a)
  end.

Lemma GameType_key_inj (a b : GameType) :
  GameType_key a = GameType_key b → a = b.
Proof. by destruct a, b. Qed.

Lemma GameType_key_ne (a b : GameType) :
  a ≠ b → GameType_key a ≠ GameType_key b.
Proof. intros Hne Heq. by apply Hne, GameType_key_inj. Qed.

(** ** The loop of [completeGame], key by key *)

Section Loop.
Variable type : string.

Lemma forEach_body_entry (l : Ledger) (k : string) :
  entry (forEach_body type l k) k = entry_step type k (entry l k).
Proof.
  unfold forEach_body, entry, entry_step.
  destruct (truthy (newLocks l !! k) && negb (bool_decide (k = type)));
    [| done].
  rewrite lookup_insert_eq. unfold num_ge.
  case_geb; simpl; by rewrite ?lookup_insert_eq.
Qed.

Lemma forEach_body_entry_ne (l : Ledger) (k j : string) :
  j ≠ k → entry (forEach_body type l k) j = entry l j.
Proof.
  intros Hne. unfold forEach_body, entry.
  destruct (truthy (newLocks l !! k) && negb (bool_decide (k = type)));
    [| done].
  destruct (num_ge _ 3); simpl; by rewrite ?lookup_insert_ne.
Qed.

Lemma loop_entry_notin (keys : list string) (l : Ledger) (k : string) :
  k ∉ keys → entry (foldl (forEach_body type) l keys) k = entry l k.
Proof.
  revert l. induction keys as [| j keys IH]; intros l Hk; [done |].
  apply not_elem_of_cons in Hk as [Hne Hk]. simpl.
  rewrite IH; [| done]. by apply forEach_body_entry_ne.
Qed.

Lemma loop_entry_in (keys : list string) (l : Ledger) (k : string) :
  NoDup keys → k ∈ keys →
  entry (foldl (forEach_body type) l keys) k = entry_step type k (entry l k).
Proof.
  revert l. induction keys as [| j keys IH]; intros l Hnd Hk.
  - by apply elem_of_nil in Hk.
  - apply NoDup_cons in Hnd as [Hj Hnd]. simpl.
    destruct (decide (k = j)) as [-> | Hne].
    + rewrite loop_entry_notin; [| done]. apply forEach_body_entry.
    + apply elem_of_cons in Hk as [? | Hk]; [done |].
      rewrite IH; [| done | done]. by rewrite forEach_body_entry_ne.
Qed.

Lemma Ledger_eq (l1 l2 : Ledger) :
  (∀ k, entry l1 k = entry l2 k) → l1 = l2.
Proof.
  intros H. destruct l1 as [a1 b1 c1], l2 as [a2 b2 c2].
  f_equal; apply map_eq; intros k; specialize (H k);
    unfold entry in H; simpl in H; congruence.
Qed.

(** The records the loop leaves do not depend on the order in which the keys
    are visited. *)
Lemma forEach_order_irrelevant (keys keys' : list string) (l : Ledger) :
  NoDup keys → keys ≡ₚ keys' →
  foldl (forEach_body type) l keys = foldl (forEach_body type) l keys'.
Proof.
  intros Hnd Hperm. apply Ledger_eq. intros k.
  assert (NoDup keys') as Hnd' by by rewrite <- Hperm.
  destruct (decide (k ∈ keys)) as [Hin | Hnin].
  - rewrite !loop_entry_in; try done. by rewrite <- Hperm.
  - rewrite !loop_entry_notin; try done. by rewrite <- Hperm.
Qed.

(** Every key, visited or not, ends with the entry one visit gives it: a key
    the loop does not visit is not in [newLocks], hence not locked. *)
Lemma practice_loop_entry (prev : AppState) (k : string) :
  entry (practice_loop type
           (Object_keys (newLocks (practice_ledger type prev))) prev) k
  = entry_step type k (entry (practice_ledger type prev) k).
Proof.
  unfold practice_loop, Object_keys.
  set (l := practice_ledger type prev).
  destruct (decide (k ∈ (map_to_list (newLocks l)).*1)) as [Hin | Hnin].
  - apply loop_entry_in; [apply NoDup_fst_map_to_list | done].
  - rewrite loop_entry_notin; [| done].
    assert (newLocks l !! k = None) as Hnone.
    { apply not_elem_of_dom. intros Hd. apply Hnin.
      apply elem_of_dom in Hd as [b Hb].
      apply list_elem_of_fmap. exists (k, b). split; [done |].
      by apply elem_of_map_to_list. }
    unfold entry, entry_step. by rewrite Hnone.
Qed.

End Loop.

(** ** One practice completion, key by key *)

Lemma completeGame_unfold (isTest : bool) (r : TestResult) (st : AppState) :
  completeGame isTest r st
  = addEmeralds_update (score r / 10) (completeGame_update isTest r st).
Proof. reflexivity. Qed.

Lemma addEmeralds_state_entry (amount : Z) (st : AppState) (k : string) :
  state_entry (addEmeralds_update amount st) k = state_entry st k.
Proof. reflexivity. Qed.

Lemma practice_update_entry (r : TestResult) (st : AppState) (k : string) :
  state_entry (completeGame_update false r st) k
  = entry (practice_loop (GameType_key (gameType r))
             (Object_keys
                (newLocks (practice_ledger (GameType_key (gameType r)) st)))
             st) k.
Proof. reflexivity. Qed.

(** The game that was played: its count goes up by one and it locks at
    five; the loop leaves it alone. *)
Lemma practice_own_entry (r : TestResult) (st : AppState) :
  let k := GameType_key (gameType r) in
  let c := or0 (successCounts st !! k) + 1 in
  state_entry (completeGame false r st) k
  = (if c >=? 5 then Some true else isLocked st !! k,
     Some c,
     otherSuccessesSinceLock st !! k).
Proof.
  intros k c.
  rewrite completeGame_unfold, addEmeralds_state_entry, practice_update_entry.
  fold k. rewrite practice_loop_entry.
  unfold entry, entry_step, practice_ledger. simpl.
  rewrite bool_decide_eq_true_2 by done. rewrite andb_false_r.
  rewrite !lookup_insert_eq. unfold num_ge. fold c.
  case_geb; by rewrite ?lookup_insert_eq.
Qed.

(** Any other game: one visit of the loop on the entry it had. *)
Lemma practice_other_entry (r : TestResult) (st : AppState) (k : string) :
  k ≠ GameType_key (gameType r) →
  state_entry (completeGame false r st) k
  = entry_step (GameType_key (gameType r)) k (state_entry st k).
Proof.
  intros Hne. apply not_eq_sym in Hne as Hne'.
  rewrite completeGame_unfold, addEmeralds_state_entry, practice_update_entry.
  rewrite practice_loop_entry.
  unfold entry, practice_ledger, state_entry. simpl.
  destruct (num_ge _ 5);
    by rewrite ?(lookup_insert_ne _ (GameType_key (gameType r)) k).
Qed.

Lemma truthy_Some_true (x : option bool) : truthy x = true → x = Some true.
Proof. by destruct x as [[] |]. Qed.

Lemma run_nil (st : AppState) : run [] st = st.
Proof. reflexivity. Qed.

Lemma run_cons (e : Event) (events : list Event) (st : AppState) :
  run (e :: events) st = run events (handle e st).
Proof. reflexivity. Qed.

Lemma handle_Complete (isTest : bool) (r : TestResult) (st : AppState) :
  handle (Complete isTest r) st = completeGame isTest r st.
Proof. reflexivity. Qed.

Lemma run_snoc (events : list Event) (e : Event) (st : AppState) :
  run (events ++ [e]) st = handle e (run events st).
Proof. unfold run. by rewrite foldl_app. Qed.

(** One more success on the game played, from a count of [c]. *)
Lemma practice_own_step (v : GameType) (r : TestResult) (st : AppState)
    (c : Z) :
  gameType r = v →
  or0 (successCounts st !! GameType_key v) = c →
  successCounts (completeGame false r st) !! GameType_key v = Some (c + 1)
  ∧ isLocked (completeGame false r st) !! GameType_key v
    = (if c + 1 >=? 5 then Some true else isLocked st !! GameType_key v).
Proof.
  intros <- <-. pose proof (practice_own_entry r st) as H.
  unfold state_entry in H. simpl in H. by simplify_eq.
Qed.

(** One success on another game, seen from a locked game whose counter of
    other successes stands at [p]. *)
Lemma practice_other_step (v : GameType) (r : TestResult) (st : AppState)
    (p : Z) :
  gameType r ≠ v →
  truthy (isLocked st !! GameType_key v) = true →
  or0 (otherSuccessesSinceLock st !! GameType_key v) = p →
  state_entry (completeGame false r st) (GameType_key v)
  = (if p + 1 >=? 3 then (Some false, Some 0, Some 0)
     else (Some true, successCounts st !! GameType_key v, Some (p + 1))).
Proof.
  intros Hne Hlocked <-.
  rewrite practice_other_entry by (by apply GameType_key_ne).
  unfold state_entry, entry_step. rewrite Hlocked.
  rewrite bool_decide_eq_false_2 by (by apply GameType_key_ne).
  simpl. case_geb; [done |]. by rewrite (truthy_Some_true _ Hlocked).
Qed.

(** The gate of [startGame]: a practice session on a locked game is not
    started, the component stays as it is. *)
Lemma startGame_locked (type : GameType) (mode : PlayMode) (app : App) :
  truthy (isLocked (state app) !! GameType_key type) = true →
  startGame type mode false app = app.
Proof. intros H. unfold startGame. by rewrite H. Qed.

(** ** The lock transition *)

(** C1, as the code has it. From a state in which a game [v] has no practice
    success counted and is not locked, five consecutive practice completions
    of [v] leave its count at 5 and [v] locked; a sixth practice session on
    [v] is then refused by [startGame], which leaves the component, and so
    the count and the lock of [v], as they are. *)
Theorem five_successes_lock (v : GameType) (rs : list TestResult)
    (st : AppState) (mode : PlayMode) (app : App) :
  length rs = 5%nat →
  Forall (λ r, gameType r = v) rs →
  or0 (successCounts st !! GameType_key v) = 0 →
  truthy (isLocked st !! GameType_key v) = false →
  state app = run (Complete false <$> rs) st →
  successCounts (state app) !! GameType_key v = Some 5
  ∧ isLocked (state app) !! GameType_key v = Some true
  ∧ startGame v mode false app = app.
Proof.
  intros Hlen Hall Hcount Hlock Happ.
  destruct rs as [| r1 [| r2 [| r3 [| r4 [| r5 [| ? ?]]]]]]; try done.
  repeat (apply Forall_cons in Hall as [? Hall]).
  rewrite !fmap_cons, !run_cons, run_nil, !handle_Complete in Happ.
  destruct (practice_own_step v r1 st 0) as [C1 _]; [done | done |].
  set (st1 := completeGame false r1 st) in C1, Happ.
  destruct (practice_own_step v r2 st1 1) as [C2 _];
    [done | by rewrite C1 |].
  set (st2 := completeGame false r2 st1) in C2, Happ.
  destruct (practice_own_step v r3 st2 2) as [C3 _];
    [done | by rewrite C2 |].
  set (st3 := completeGame false r3 st2) in C3, Happ.
  destruct (practice_own_step v r4 st3 3) as [C4 _];
    [done | by rewrite C3 |].
  set (st4 := completeGame false r4 st3) in C4, Happ.
  destruct (practice_own_step v r5 st4 4) as [C5 L5];
    [done | by rewrite C4 |].
  change (4 + 1) with 5 in C5, L5. change (5 >=? 5) with true in L5.
  cbv iota in L5. rewrite <- Happ in C5, L5.
  split; [done |]. split; [done |].
  apply startGame_locked. by rewrite L5.
Qed.

Lemma five_successes_lock_witness :
  let rs := replicate 5 (practice_result MAKE_TEN) in
  let app := {| state := run (Complete false <$> rs) INITIAL_STATE;
                currentView := results;
                activeGame := Some MAKE_TEN;
                playMode := STREAK;
                isTestMode := false;
                lastGameResult := Some (practice_result MAKE_TEN) |} in
  successCounts (state app) !! GameType_key MAKE_TEN = Some 5
  ∧ isLocked (state app) !! GameType_key MAKE_TEN = Some true
  ∧ startGame MAKE_TEN STREAK false app = app.
Proof.
  intros rs app.
  apply (five_successes_lock MAKE_TEN rs INITIAL_STATE STREAK app);
    [reflexivity | repeat constructor | vm_compute; reflexivity
    | vm_compute; reflexivity | reflexivity].
Defined.

(** C1 as it is worded fails on [completeGame]: called a sixth time for a
    game that its fifth call locked, it counts a sixth success. *)
Lemma sixth_completion_counts :
  let r := practice_result MAKE_TEN in
  let st5 := run (replicate 5 (Complete false r)) INITIAL_STATE in
  successCounts st5 !! GameType_key MAKE_TEN = Some 5
  ∧ isLocked st5 !! GameType_key MAKE_TEN = Some true
  ∧ successCounts (completeGame false r st5) !! GameType_key MAKE_TEN
    = Some 6
  ∧ successCounts (completeGame false r st5) !! GameType_key MAKE_TEN
    ≠ successCounts st5 !! GameType_key MAKE_TEN.
Proof. vm_compute. repeat split; congruence. Qed.

(** ** The unlock transition *)

(** A completion of another game leaves the entry of a game that is not
    locked as it is. *)
Lemma practice_other_open (v : GameType) (r : TestResult) (st : AppState) :
  gameType r ≠ v →
  truthy (isLocked st !! GameType_key v) = false →
  state_entry (completeGame false r st) (GameType_key v)
  = state_entry st (GameType_key v).
Proof.
  intros Hne Hopen.
  rewrite practice_other_entry by (by apply GameType_key_ne).
  unfold state_entry, entry_step. by rewrite Hopen.
Qed.

(** C2, as the code has it. For every state in which [v] is locked, with a
    counter of other successes that is not negative, three practice
    completions of games other than [v] leave [v] unlocked with its count
    and its counter at 0. Each such completion either leaves [v] locked or
    resets the lock, the count and the counter together. When the counter
    is 0, as it is when [v] has just been locked, two such completions
    leave [v] locked with the counter at 2. *)
Theorem three_other_successes_unlock (v : GameType) (r1 r2 r3 : TestResult)
    (st : AppState) :
  gameType r1 ≠ v → gameType r2 ≠ v → gameType r3 ≠ v →
  truthy (isLocked st !! GameType_key v) = true →
  0 ≤ or0 (otherSuccessesSinceLock st !! GameType_key v) →
  let st1 := completeGame false r1 st in
  let st2 := run [Complete false r1; Complete false r2] st in
  let st3 := completeGame false r3 st2 in
  (isLocked st3 !! GameType_key v = Some false
   ∧ successCounts st3 !! GameType_key v = Some 0
   ∧ otherSuccessesSinceLock st3 !! GameType_key v = Some 0)
  ∧ (isLocked st1 !! GameType_key v = Some true
     ∨ state_entry st1 (GameType_key v) = (Some false, Some 0, Some 0))
  ∧ (or0 (otherSuccessesSinceLock st !! GameType_key v) = 0 →
     isLocked st2 !! GameType_key v = Some true
     ∧ otherSuccessesSinceLock st2 !! GameType_key v = Some 2).
Proof.
  intros Hr1 Hr2 Hr3 Hlocked Hp st1 st2 st3.
  assert (st2 = completeGame false r2 st1) as Hst2 by reflexivity.
  clearbody st2. subst st2.
  pose proof (practice_other_step v r1 st _ Hr1 Hlocked eq_refl) as E1.
  fold st1 in E1. clearbody st1.
  set (k := GameType_key v) in *.
  set (p := or0 (otherSuccessesSinceLock st !! k)) in *. clearbody p.
  set (st2 := completeGame false r2 st1) in *.
  assert (∀ r st', gameType r ≠ v →
            state_entry st' k = (Some false, Some 0, Some 0) →
            state_entry (completeGame false r st') k
            = (Some false, Some 0, Some 0)) as Hopen.
  { intros r st' Hr E. rewrite <- E. apply practice_other_open; [done |].
    unfold state_entry in E. injection E as L _ _. fold k. by rewrite L. }
  destruct (Z.geb_spec (p + 1) 3) as [Hp1 | Hp1].
  - (* the first completion unlocks *)
    pose proof (Hopen r2 st1 Hr2 E1) as E2. fold st2 in E2.
    pose proof (Hopen r3 st2 Hr3 E2) as E3. fold st3 in E3.
    unfold state_entry in E3.
    split; [by simplify_eq |]. split; [by right | lia].
  - unfold state_entry in E1.
    assert (isLocked st1 !! k = Some true) as L1 by by simplify_eq.
    assert (otherSuccessesSinceLock st1 !! k = Some (p + 1)) as U1
      by by simplify_eq.
    clear E1.
    assert (state_entry st2 k
            = if p + 1 + 1 >=? 3 then (Some false, Some 0, Some 0)
              else (Some true, successCounts st1 !! k, Some (p + 1 + 1)))
      as E2.
    { apply (practice_other_step v r2 st1 (p + 1) Hr2); fold k.
      - by rewrite L1.
      - by rewrite U1. }
    destruct (Z.geb_spec (p + 1 + 1) 3) as [Hp2 | Hp2].
    + (* the second completion unlocks *)
      pose proof (Hopen r3 st2 Hr3 E2) as E3. fold st3 in E3.
      unfold state_entry in E3.
      split; [by simplify_eq |]. split; [by left | lia].
    + unfold state_entry in E2.
      assert (isLocked st2 !! k = Some true) as L2 by by simplify_eq.
      assert (otherSuccessesSinceLock st2 !! k = Some (p + 1 + 1)) as U2
        by by simplify_eq.
      clear E2.
      assert (state_entry st3 k
              = if p + 1 + 1 + 1 >=? 3 then (Some false, Some 0, Some 0)
                else (Some true, successCounts st2 !! k,
                      Some (p + 1 + 1 + 1))) as E3.
      { apply (practice_other_step v r3 st2 (p + 1 + 1) Hr3); fold k.
        - by rewrite L2.
        - by rewrite U2. }
      destruct (Z.geb_spec (p + 1 + 1 + 1) 3) as [Hp3 | Hp3]; [| lia].
      unfold state_entry in E3.
      split; [by simplify_eq |]. split; [by left |].
      intros ->. by rewrite L2, U2.
Qed.

Lemma three_other_successes_unlock_witness :
  let r := practice_result DOUBLES in
  let st :=
    run (replicate 5 (Complete false (practice_result MAKE_TEN)))
      INITIAL_STATE in
  let st1 := completeGame false r st in
  let st2 := run [Complete false r; Complete false r] st in
  let st3 := completeGame false r st2 in
  (isLocked st3 !! GameType_key MAKE_TEN = Some false
   ∧ successCounts st3 !! GameType_key MAKE_TEN = Some 0
   ∧ otherSuccessesSinceLock st3 !! GameType_key MAKE_TEN = Some 0)
  ∧ (isLocked st1 !! GameType_key MAKE_TEN = Some true
     ∨ state_entry st1 (GameType_key MAKE_TEN)
       = (Some false, Some 0, Some 0))
  ∧ (isLocked st2 !! GameType_key MAKE_TEN = Some true
     ∧ otherSuccessesSinceLock st2 !! GameType_key MAKE_TEN = Some 2).
Proof.
  intros r st st1 st2 st3.
  destruct (three_other_successes_unlock MAKE_TEN r r r st)
    as (Hthree & Hone & Htwo);
    [discriminate | discriminate | discriminate | vm_compute; reflexivity
    | vm_compute; discriminate |].
  split; [exact Hthree |]. split; [exact Hone |].
  apply Htwo. vm_compute. reflexivity.
Defined.

(** C2 as it is worded fails, in its second half, for a locked game that
    already has one other success counted: two more completions of another
    game unlock it. *)
Lemma two_other_successes_may_unlock :
  let st :=
    run (replicate 5 (Complete false (practice_result MAKE_TEN))
         ++ [Complete false (practice_result DOUBLES)]) INITIAL_STATE in
  let st2 :=
    run (replicate 2 (Complete false (practice_result DOUBLES))) st in
  isLocked st !! GameType_key MAKE_TEN = Some true
  ∧ isLocked st2 !! GameType_key MAKE_TEN = Some false
  ∧ otherSuccessesSinceLock st2 !! GameType_key MAKE_TEN = Some 0.
Proof. vm_compute. by repeat split. Qed.

(** ** Test completions *)

Lemma completeGame_update_reward_fields (isTest : bool) (r : TestResult)
    (st : AppState) :
  emeralds (completeGame_update isTest r st) = emeralds st
  ∧ xp (completeGame_update isTest r st) = xp st
  ∧ level (completeGame_update isTest r st) = level st.
Proof.
  unfold completeGame_update. destruct isTest; [| done].
  by destruct (score r >=? _).
Qed.

(** C8. A completion in test mode leaves the three records of the lock
    engine as they were, for every game. *)
Theorem test_completion_keeps_ledger (r : TestResult) (st : AppState) :
  isLocked (completeGame true r st) = isLocked st
  ∧ successCounts (completeGame true r st) = successCounts st
  ∧ otherSuccessesSinceLock (completeGame true r st)
    = otherSuccessesSinceLock st.
Proof.
  rewrite completeGame_unfold. unfold completeGame_update, addEmeralds_update.
  by destruct (score r >=? _).
Qed.

Lemma test_completion_testScores (r : TestResult) (st : AppState) :
  let k := GameType_key (gameType r) in
  testScores (completeGame true r st)
  = if score r >=? or0 (testScores st !! k)
    then <[k := score r]> (testScores st)
    else testScores st.
Proof.
  intros k. rewrite completeGame_unfold.
  unfold completeGame_update, addEmeralds_update. fold k.
  by destruct (score r >=? _).
Qed.

Lemma practice_completion_testScores (r : TestResult) (st : AppState) :
  testScores (completeGame false r st) = testScores st.
Proof. reflexivity. Qed.

Lemma buyItem_testScores (price : Z) (itemId : string) (st : AppState) :
  testScores (buyItem price itemId st) = testScores st.
Proof.
  unfold buyItem, handle, updates_of, buyItem_updates.
  destruct (_ && _); [done |]. by destruct (includes _ _).
Qed.

(** No handler but the reset lowers a best test score. *)
Lemma handle_testScores_mono (e : Event) (st : AppState) (k : string) :
  e ≠ Reset →
  or0 (testScores st !! k) ≤ or0 (testScores (handle e st) !! k).
Proof.
  intros Hreset. destruct e as [[] r | price itemId |]; [| | | done].
  - rewrite handle_Complete, test_completion_testScores.
    case_geb; [| lia].
    destruct (decide (GameType_key (gameType r) = k)) as [<- | Hne].
    + rewrite lookup_insert_eq. simpl. lia.
    + rewrite lookup_insert_ne by done. lia.
  - rewrite handle_Complete, practice_completion_testScores. lia.
  - fold (buyItem price itemId st). rewrite buyItem_testScores. lia.
Qed.

Lemma run_testScores_mono (events : list Event) (st : AppState)
    (k : string) :
  Reset ∉ events →
  or0 (testScores st !! k) ≤ or0 (testScores (run events st) !! k).
Proof.
  revert st. induction events as [| e events IH]; intros st Hreset.
  - rewrite run_nil. lia.
  - apply not_elem_of_cons in Hreset as [Hne Hreset].
    rewrite run_cons. etrans; [| by apply IH].
    apply handle_testScores_mono. congruence.
Qed.

(** C5. A test result with score [s] for game [v] makes the best score of
    [v], read as the code reads it ([testScores[v] || 0]), the maximum of
    what it was and [s]: a lower score leaves [testScores] as it is, a
    higher one is stored as it is, and for a score that is not negative the
    stored entry is that maximum. Over any sequence of completions, in
    either mode, and purchases, the operations of the progress state during
    its lifetime, the best score of a game never goes down. ([resetProgress]
    ends that lifetime: it puts [INITIAL_STATE] back.) *)
Theorem best_test_score_max (r : TestResult) (st : AppState)
    (events : list Event) (v : GameType) :
  let k := GameType_key (gameType r) in
  let best := or0 (testScores st !! k) in
  let st' := completeGame true r st in
  or0 (testScores st' !! k) = Z.max best (score r)
  ∧ (score r < best → testScores st' = testScores st)
  ∧ (best < score r → testScores st' !! k = Some (score r))
  ∧ (0 ≤ score r → testScores st' !! k = Some (Z.max best (score r)))
  ∧ (Reset ∉ events →
     or0 (testScores st !! GameType_key v)
     ≤ or0 (testScores (run events st) !! GameType_key v)).
Proof.
  intros k best st'. unfold st'. rewrite test_completion_testScores.
  fold k best. repeat split.
  - case_geb; [rewrite lookup_insert_eq; simpl |]; lia.
  - intros Hlt. case_geb; [lia | done].
  - intros Hlt. case_geb; [by rewrite lookup_insert_eq | lia].
  - intros Hpos. case_geb.
    + rewrite lookup_insert_eq. f_equal. lia.
    + unfold best in *. destruct (testScores st !! k) as [b |]; simpl in *.
      * f_equal. lia.
      * lia.
  - apply run_testScores_mono.
Qed.

Lemma best_test_score_max_witness :
  let r := finalResult true INITIAL_SETTINGS 7 0 DOUBLES in
  let st := completeGame true (finalResult true INITIAL_SETTINGS 9 0 DOUBLES)
              INITIAL_STATE in
  testScores (completeGame true r st) = testScores st
  ∧ testScores (completeGame true r st) !! GameType_key DOUBLES = Some 90
  ∧ 90 ≤ or0 (testScores
                (run [Complete true r; Buy 10 "wood-tile"] st)
              !! GameType_key DOUBLES).
Proof.
  intros r st.
  pose proof (best_test_score_max r st
                [Complete true r; Buy 10 "wood-tile"%string] DOUBLES)
    as (_ & Hlower & _ & Hmax & Hmono).
  split; [apply Hlower; vm_compute; reflexivity |].
  split; [apply Hmax; vm_compute; discriminate |].
  apply Hmono. intros Hin.
  repeat (apply elem_of_cons in Hin as [Hin | Hin]; [discriminate |]).
  by apply elem_of_nil in Hin.
Defined.

(** ** Reward and level *)

Lemma completeGame_reward_fields (isTest : bool) (r : TestResult)
    (st : AppState) :
  emeralds (completeGame isTest r st) = emeralds st + score r / 10
  ∧ xp (completeGame isTest r st) = xp st + score r / 10 * 5
  ∧ level (completeGame isTest r st) = (xp st + score r / 10 * 5) / 100 + 1.
Proof.
  rewrite completeGame_unfold.
  destruct (completeGame_update_reward_fields isTest r st) as (He & Hx & _).
  unfold addEmeralds_update. simpl. by rewrite He, Hx.
Qed.

(** C7. A completed attempt with score [s], in either mode, adds
    [floor (s / 10)] to the emeralds and five times that to the xp; a score
    of 83 adds 8 emeralds and 40 xp. *)
Theorem completion_reward (isTest : bool) (r : TestResult) (st : AppState) :
  let currencyDelta := score r / 10 in
  let xpDelta := 5 * currencyDelta in
  emeralds (completeGame isTest r st) = emeralds st + currencyDelta
  ∧ xp (completeGame isTest r st) = xp st + xpDelta
  ∧ (score r = 83 →
     emeralds (completeGame isTest r st) = emeralds st + 8
     ∧ xp (completeGame isTest r st) = xp st + 40).
Proof.
  intros currencyDelta xpDelta.
  destruct (completeGame_reward_fields isTest r st) as (He & Hx & _).
  rewrite He, Hx. unfold xpDelta, currencyDelta.
  split; [done |]. split; [lia |].
  intros ->. change (83 / 10) with 8. lia.
Qed.

Lemma completion_reward_witness :
  let r := {| score := 83; rating := Iron; time := 40; gameType := COUNT_UP |}
  in
  emeralds (completeGame true r INITIAL_STATE) = emeralds INITIAL_STATE + 8
  ∧ xp (completeGame true r INITIAL_STATE) = xp INITIAL_STATE + 40.
Proof.
  intros r. apply (completion_reward true r INITIAL_STATE). reflexivity.
Defined.

(** Whatever the handlers enqueue either recomputes the level from the new
    xp or touches neither. *)
Lemma update_level (e : Event) (st : AppState) (u : AppState → AppState)
    (s : AppState) :
  u ∈ updates_of e st →
  level (u s) = xp (u s) / 100 + 1 ∨ (xp (u s) = xp s ∧ level (u s) = level s).
Proof.
  destruct e as [isTest r | price itemId |]; simpl.
  - unfold completeGame_updates. intros Hu.
    apply elem_of_cons in Hu as [-> | Hu].
    + right. by destruct (completeGame_update_reward_fields isTest r s)
        as (_ & ? & ?).
    + apply list_elem_of_singleton in Hu as ->. by left.
  - unfold buyItem_updates. destruct (_ && _).
    + intros ->%list_elem_of_singleton. by right.
    + destruct (includes _ _).
      * intros ->%list_elem_of_singleton. by right.
      * by intros ?%elem_of_nil.
  - unfold resetProgress_updates. intros ->%list_elem_of_singleton. by left.
Qed.

(** A property every updater of a queue keeps holds of every state the
    queue goes through. *)
Lemma snapshots_invariant (P : AppState → Prop)
    (updates : list (AppState → AppState)) (st st' : AppState) :
  (∀ u s, u ∈ updates → P s → P (u s)) →
  P st → st' ∈ snapshots updates st → P st'.
Proof.
  revert st. induction updates as [| u updates IH]; intros st Hkeep Hst Hin.
  - by apply elem_of_nil in Hin.
  - simpl in Hin. apply elem_of_cons in Hin as [-> | Hin].
    + apply Hkeep; [left | done].
    + apply (IH (u st)); [| | done].
      * intros u' s Hu'. apply Hkeep. by right.
      * apply Hkeep; [left | done].
Qed.

Lemma apply_updates_snapshots (updates : list (AppState → AppState))
    (st : AppState) :
  updates ≠ [] → apply_updates updates st ∈ snapshots updates st.
Proof.
  revert st. induction updates as [| u updates IH]; intros st Hne; [done |].
  destruct updates as [| u' updates].
  - left.
  - right. by apply (IH (u st)).
Qed.

(** The state a handler leaves is one of the states [reachable] counts. *)
Lemma reachable_handle (e : Event) (st : AppState) :
  reachable st → valid_event e → reachable (handle e st).
Proof.
  intros Hr Hvalid. unfold handle.
  destruct (updates_of e st) as [| u updates] eqn:Hups; [done |].
  apply (reachable_step st e); [done | done |].
  rewrite Hups. by apply apply_updates_snapshots.
Qed.

Lemma reachable_run (events : list Event) (st : AppState) :
  reachable st → Forall valid_event events → reachable (run events st).
Proof.
  revert st. induction events as [| e events IH]; intros st Hr Hall; [done |].
  apply Forall_cons in Hall as [Hvalid Hall]. rewrite run_cons.
  apply IH; [| done]. by apply reachable_handle.
Qed.

Lemma reachable_level (st : AppState) :
  reachable st → level st = xp st / 100 + 1.
Proof.
  intros Hr. induction Hr as [| st e st' Hr IH Hvalid Hin]; [done |].
  apply (snapshots_invariant (λ s, level s = xp s / 100 + 1)
           (updates_of e st) st st'); [| done | done].
  intros u s Hu Hs. destruct (update_level e st u s Hu) as [? | [Hx Hl]];
    [done |]. by rewrite Hx, Hl.
Qed.

(** C6. In every state the App can reach the level is
    [floor (xp / 100) + 1]: the initial state has it, the updater of
    [addEmeralds] computes the level from the xp it stores, and every other
    updater leaves both alone. From xp 0, four completions with score 100
    give xp 200 and level 3. *)
Theorem level_follows_xp (st : AppState) (amount : Z) (prev : AppState)
    (b1 b2 b3 b4 : bool) (r1 r2 r3 r4 : TestResult) (st0 : AppState) :
  (reachable st → level st = xp st / 100 + 1)
  ∧ level INITIAL_STATE = xp INITIAL_STATE / 100 + 1
  ∧ level (addEmeralds_update amount prev)
    = xp (addEmeralds_update amount prev) / 100 + 1
  ∧ (xp st0 = 0 →
     score r1 = 100 → score r2 = 100 → score r3 = 100 → score r4 = 100 →
     let st4 :=
       run [Complete b1 r1; Complete b2 r2; Complete b3 r3; Complete b4 r4]
         st0 in
     xp st4 = 200 ∧ level st4 = 3).
Proof.
  split; [apply reachable_level |]. split; [done |]. split; [done |].
  intros Hx0 H1 H2 H3 H4 st4. unfold st4.
  rewrite !run_cons, run_nil, !handle_Complete.
  destruct (completeGame_reward_fields b1 r1 st0) as (_ & X1 & _).
  set (st1 := completeGame b1 r1 st0) in *.
  destruct (completeGame_reward_fields b2 r2 st1) as (_ & X2 & _).
  set (st2 := completeGame b2 r2 st1) in *.
  destruct (completeGame_reward_fields b3 r3 st2) as (_ & X3 & _).
  set (st3 := completeGame b3 r3 st2) in *.
  destruct (completeGame_reward_fields b4 r4 st3) as (_ & X4 & L4).
  rewrite H1 in X1. rewrite H2 in X2. rewrite H3 in X3.
  rewrite H4 in X4, L4. change (100 / 10 * 5) with 50 in *.
  rewrite L4, X4, X3, X2, X1, Hx0. by split.
Qed.

Lemma level_follows_xp_witness :
  let r := practice_result NUMBER_HOP in
  let st := completeGame false r INITIAL_STATE in
  let st4 :=
    run [Complete false r; Complete false r; Complete false r;
         Complete false r] INITIAL_STATE in
  level st = xp st / 100 + 1 ∧ xp st4 = 200 ∧ level st4 = 3.
Proof.
  intros r st st4.
  pose proof (level_follows_xp st 10 INITIAL_STATE false false false false
                r r r r INITIAL_STATE) as (Hreach & _ & _ & Hfour).
  split.
  - apply Hreach.
    apply (reachable_step INITIAL_STATE (Complete false r));
      [apply reachable_init | vm_compute; discriminate |].
    right. left.
  - apply Hfour; reflexivity.
Defined.

(** ** The shop *)

Lemma includes_true (itemId : string) (items : list string) :
  includes itemId items = true ↔ itemId ∈ items.
Proof. unfold includes. by rewrite bool_decide_eq_true. Qed.

Lemma includes_false (itemId : string) (items : list string) :
  includes itemId items = false ↔ itemId ∉ items.
Proof. unfold includes. by rewrite bool_decide_eq_false. Qed.

(** The three cases of [buyItem]. *)
Lemma buyItem_cases (price : Z) (itemId : string) (st : AppState) :
  (price ≤ emeralds st ∧ (itemId ∉ unlockedItems st)
   ∧ buyItem price itemId st
     = {| emeralds := emeralds st - price;
          xp := xp st;
          level := level st;
          testScores := testScores st;
          unlockedItems := unlockedItems st ++ [itemId];
          equippedItem := itemId;
          hearts := hearts st;
          successCounts := successCounts st;
          isLocked := isLocked st;
          otherSuccessesSinceLock := otherSuccessesSinceLock st;
          currentPlayMode := currentPlayMode st;
          streak := streak st |})
  ∨ (itemId ∈ unlockedItems st
     ∧ buyItem price itemId st
       = {| emeralds := emeralds st;
            xp := xp st;
            level := level st;
            testScores := testScores st;
            unlockedItems := unlockedItems st;
            equippedItem := itemId;
            hearts := hearts st;
            successCounts := successCounts st;
            isLocked := isLocked st;
            otherSuccessesSinceLock := otherSuccessesSinceLock st;
            currentPlayMode := currentPlayMode st;
            streak := streak st |})
  ∨ (emeralds st < price ∧ (itemId ∉ unlockedItems st)
     ∧ buyItem price itemId st = st).
Proof.
  unfold buyItem, handle, updates_of, buyItem_updates.
  destruct (includes itemId (unlockedItems st)) eqn:Hinc.
  - apply includes_true in Hinc. rewrite andb_false_r. right. left. done.
  - apply includes_false in Hinc. rewrite andb_true_r.
    case_geb; [left | right; right]; done.
Qed.

Lemma reachable_emeralds (st : AppState) : reachable st → 0 ≤ emeralds st.
Proof.
  intros Hr. induction Hr as [| st e st' Hr IH Hvalid Hin]; [done |].
  destruct e as [isTest r | price itemId |]; simpl in Hin, Hvalid.
  - apply elem_of_cons in Hin as [-> | Hin].
    + by destruct (completeGame_update_reward_fields isTest r st) as [-> _].
    + apply list_elem_of_singleton in Hin as ->.
      destruct (completeGame_update_reward_fields isTest r st) as [He _].
      unfold addEmeralds_update. simpl. rewrite He.
      assert (0 ≤ score r / 10) by (apply Z.div_pos; lia). lia.
  - unfold buyItem_updates in Hin.
    destruct (includes itemId (unlockedItems st)).
    + rewrite andb_false_r in Hin. simpl in Hin.
      by apply list_elem_of_singleton in Hin as ->.
    + rewrite andb_true_r in Hin. revert Hin. case_geb; simpl; intros Hin.
      * apply list_elem_of_singleton in Hin as ->. simpl. lia.
      * by apply elem_of_nil in Hin.
  - by apply list_elem_of_singleton in Hin as ->.
Qed.

(** C10. The emeralds are never negative in a state the App can reach.
    [buyItem] takes the price off only when the emeralds cover it and the
    item is not owned yet, and it then adds the item and equips it; on an
    item already owned it only equips it, emeralds and owned items as they
    were; otherwise it changes nothing. *)
Theorem emeralds_never_negative (st : AppState) (price : Z)
    (itemId : string) :
  (reachable st → 0 ≤ emeralds st)
  ∧ (emeralds (buyItem price itemId st) ≠ emeralds st →
     price ≤ emeralds st ∧ itemId ∉ unlockedItems st)
  ∧ (price ≤ emeralds st → itemId ∉ unlockedItems st →
     emeralds (buyItem price itemId st) = emeralds st - price
     ∧ unlockedItems (buyItem price itemId st)
       = (unlockedItems st ++ [itemId])
     ∧ equippedItem (buyItem price itemId st) = itemId)
  ∧ (itemId ∈ unlockedItems st →
     emeralds (buyItem price itemId st) = emeralds st
     ∧ unlockedItems (buyItem price itemId st) = unlockedItems st
     ∧ equippedItem (buyItem price itemId st) = itemId)
  ∧ (emeralds st < price → itemId ∉ unlockedItems st →
     buyItem price itemId st = st).
Proof.
  split; [apply reachable_emeralds |].
  destruct (buyItem_cases price itemId st)
    as [(Hp & Hnew & ->) | [(Hown & ->) | (Hp & Hnew & ->)]]; simpl.
  - repeat split; try done; intros; try done; lia.
  - repeat split; try done; intros; try done.
  - repeat split; try done; intros; try done; lia.
Qed.

Lemma emeralds_never_negative_witness :
  let st := completeGame false (practice_result COUNT_UP) INITIAL_STATE in
  0 ≤ emeralds st
  ∧ emeralds (buyItem 10 "wood-tile" st) = 0
  ∧ unlockedItems (buyItem 10 "wood-tile" st)
    = (unlockedItems st ++ ["wood-tile"%string])
  ∧ emeralds (buyItem 10 "base-char" st) = 10
  ∧ buyItem 25 "stone-tile" st = st.
Proof.
  intros st.
  pose proof (emeralds_never_negative st 10 "wood-tile"%string)
    as (Hreach & _ & Hbuy & _ & _).
  pose proof (emeralds_never_negative st 10 "base-char"%string)
    as (_ & _ & _ & Hown & _).
  pose proof (emeralds_never_negative st 25 "stone-tile"%string)
    as (_ & _ & _ & _ & Hpoor).
  split.
  { apply Hreach.
    apply (reachable_step INITIAL_STATE
             (Complete false (practice_result COUNT_UP)));
      [apply reachable_init | vm_compute; discriminate |].
    right. left. }
  destruct Hbuy as (He & Hu & _).
  { vm_compute. discriminate. }
  { apply includes_false. vm_compute. reflexivity. }
  destruct Hown as (He' & _ & _).
  { apply includes_true. vm_compute. reflexivity. }
  split; [exact He |]. split; [exact Hu |]. split; [exact He' |].
  apply Hpoor.
  - vm_compute. reflexivity.
  - apply includes_false. vm_compute. reflexivity.
Defined.

(** ** Mastery rating *)

(** The rating [TestSelection] shows has the three tiers, the bounds 90 and
    75 in the higher one. *)
Lemma TestSelection_rating_tiers (s : Z) :
  (90 ≤ s → TestSelection_rating s = Diamond)
  ∧ (75 ≤ s < 90 → TestSelection_rating s = Iron)
  ∧ (s < 75 → TestSelection_rating s = Wood).
Proof. unfold TestSelection_rating. repeat split; intros; case_geb; lia || done. Qed.

(** The rating [GameScreen] stores has two tiers. *)
Lemma GameScreen_rating_tiers (s : Z) :
  (90 ≤ s → GameScreen_rating s = Diamond)
  ∧ (s < 90 → GameScreen_rating s = Wood).
Proof. unfold GameScreen_rating. split; intros; case_geb; lia || done. Qed.

(** The two ratings differ exactly on the scores from 75 to 89. *)
Lemma ratings_differ_iff (s : Z) :
  GameScreen_rating s ≠ TestSelection_rating s ↔ 75 ≤ s < 90.
Proof.
  unfold GameScreen_rating, TestSelection_rating.
  case_geb; split; intros; lia || done.
Qed.

(** [handleAnswer] moves to the next question only on a correct answer, so
    the question index never passes the count of correct answers. *)
Lemma handleAnswer_order (type : GameType) (mode : PlayMode) (isTest : bool)
    (settings : Settings) (correct : bool) (g : GameScreenState) :
  qIndex g ≤ correctCount g →
  qIndex (handleAnswer type mode isTest settings correct g).1
  ≤ correctCount (handleAnswer type mode isTest settings correct g).1.
Proof.
  intros Hle. unfold handleAnswer. destruct correct.
  - destruct (_ || _); simpl; lia.
  - destruct (decide (mode = STREAK)); simpl; lia.
Qed.

(** From such a screen state a finished session has score 100 or more, and
    on it both ratings are Diamond. *)
Lemma handleAnswer_result (type : GameType) (mode : PlayMode) (isTest : bool)
    (settings : Settings) (correct : bool) (g : GameScreenState)
    (r : TestResult) :
  qIndex g ≤ correctCount g →
  (handleAnswer type mode isTest settings correct g).2 = OnComplete r →
  100 ≤ score r ∧ rating r = TestSelection_rating (score r)
  ∧ gameType r = type.
Proof.
  intros Hle. unfold handleAnswer. destruct correct.
  - destruct (_ || _) eqn:Hfin; simpl; [| done].
    intros [= <-]. unfold finalResult. destruct isTest; simpl; [| done].
    assert (100 ≤ (correctCount g + 1) * 10) as Hs.
    { apply orb_true_iff in Hfin as [Hq | Hs].
      - simpl in Hq. revert Hq. case_geb; [lia | done].
      - apply andb_true_iff in Hs as [_ Hs]. revert Hs. case_geb; [lia | done]. }
    split; [done |]. split; [| done].
    rewrite (proj1 (GameScreen_rating_tiers _)) by lia.
    by rewrite (proj1 (TestSelection_rating_tiers _)) by lia.
  - destruct (decide (mode = STREAK)); simpl; [| done].
    by destruct (gs_hearts g <=? 1).
Qed.

(** Every result a screen hands to [onComplete] in a session started from
    its initial state has score 100 or more and the rating Diamond. *)
Lemma GameScreen_results (type : GameType) (mode : PlayMode) (isTest : bool)
    (settings : Settings) (answers : list bool) (r : TestResult) :
  r ∈ (GameScreen_run type mode isTest settings answers
         (GameScreen_init mode isTest settings)).2 →
  100 ≤ score r ∧ rating r = TestSelection_rating (score r)
  ∧ gameType r = type.
Proof.
  assert (qIndex (GameScreen_init mode isTest settings)
          ≤ correctCount (GameScreen_init mode isTest settings)) as Hle
    by done.
  revert Hle. generalize (GameScreen_init mode isTest settings).
  induction answers as [| correct answers IH]; intros g Hle; simpl.
  - by intros ?%elem_of_nil.
  - pose proof (handleAnswer_order type mode isTest settings correct g Hle)
      as Hle'.
    pose proof (handleAnswer_result type mode isTest settings correct g)
      as Hres.
    destruct (handleAnswer type mode isTest settings correct g) as [g' eff].
    specialize (IH g' Hle').
    destruct (GameScreen_run type mode isTest settings answers g')
      as [g'' rs].
    simpl in *. destruct eff as [| r' |]; [done | | done].
    intros [-> | Hin]%elem_of_cons; [| by apply IH].
    by apply Hres.
Qed.



Lemma GameScreen_results_valid (type : GameType) (mode : PlayMode)
    (isTest : bool) (settings : Settings) (answers : list bool)
    (r : TestResult) :
  r ∈ (GameScreen_run type mode isTest settings answers
         (GameScreen_init mode isTest settings)).2 →
  valid_event (Complete isTest r).
Proof. intros Hr%GameScreen_results. simpl. lia. Qed.

(** ** Scores out of range *)

Lemma clamp_score_range (s : Z) : 0 ≤ clamp_score s ≤ 100.
Proof. unfold clamp_score. lia. Qed.

Lemma clamp_score_id (s : Z) : 0 ≤ s ≤ 100 → clamp_score s = s.
Proof. unfold clamp_score. lia. Qed.

(** C9, as the code has it. A score outside 0..100 is not clamped and raises
    no error: the reward is computed from the score as it comes, so a score
    of 110 or more earns more emeralds than the clamped score would, and a
    negative score takes emeralds away. The rating of a score out of range
    is the rating of the score clamped, at both places that compute one. *)
Theorem score_is_not_clamped (isTest : bool) (r : TestResult)
    (st : AppState) :
  (score r < 0 ∨ 100 < score r →
   emeralds (completeGame isTest r st) = emeralds st + score r / 10
   ∧ xp (completeGame isTest r st) = xp st + score r / 10 * 5
   ∧ TestSelection_rating (score r)
     = TestSelection_rating (clamp_score (score r))
   ∧ GameScreen_rating (score r) = GameScreen_rating (clamp_score (score r)))
  ∧ (110 ≤ score r →
     emeralds st + clamp_score (score r) / 10
     < emeralds (completeGame isTest r st))
  ∧ (score r < 0 →
     emeralds (completeGame isTest r st)
     < emeralds st + clamp_score (score r) / 10).
Proof.
  destruct (completeGame_reward_fields isTest r st) as (He & Hx & _).
  rewrite He, Hx. unfold clamp_score, TestSelection_rating, GameScreen_rating.
  repeat split.
  - case_geb; lia || done.
  - case_geb; lia || done.
  - intros Hs. rewrite Z.min_l, Z.max_r by lia. change (100 / 10) with 10.
    assert (11 ≤ score r / 10) by (apply Z.div_le_lower_bound; lia). lia.
  - intros Hs. rewrite Z.min_r, Z.max_l by lia. change (0 / 10) with 0.
    assert (score r / 10 < 0) by (apply Z.div_lt_upper_bound; lia). lia.
Qed.

Lemma score_is_not_clamped_witness :
  let r := finalResult true INITIAL_SETTINGS 11 0 MAKE_TEN in
  let st := completeGame true r INITIAL_STATE in
  (emeralds st = emeralds INITIAL_STATE + 110 / 10
   ∧ xp st = xp INITIAL_STATE + 110 / 10 * 5
   ∧ TestSelection_rating 110 = TestSelection_rating (clamp_score 110)
   ∧ GameScreen_rating 110 = GameScreen_rating (clamp_score 110))
  ∧ emeralds INITIAL_STATE + clamp_score 110 / 10 < emeralds st.
Proof.
  intros r st.
  pose proof (score_is_not_clamped true r INITIAL_STATE) as (Hout & Hhigh & _).
  split.
  - apply Hout. right. vm_compute. reflexivity.
  - apply Hhigh. vm_compute. discriminate.
Defined.

(** C9 as it is worded fails on a score of 110, the score of a test in which
    an eleventh correct answer is given before the result of the tenth is
    handed over: it earns 11 emeralds, the clamped score would earn 10. *)
Lemma score_110_earns_11 :
  let session :=
    GameScreen_run MAKE_TEN TIMED true INITIAL_SETTINGS (replicate 11 true)
      (GameScreen_init TIMED true INITIAL_SETTINGS) in
  let r := finalResult true INITIAL_SETTINGS 11 60 MAKE_TEN in
  session.2 = [finalResult true INITIAL_SETTINGS 10 60 MAKE_TEN; r]
  ∧ score r = 110
  ∧ emeralds (completeGame true r INITIAL_STATE) = 11
  ∧ emeralds INITIAL_STATE + clamp_score (score r) / 10 = 10.
Proof. vm_compute. by repeat split. Qed.

(** * Further properties of the code *)

(** ** The unlock loop *)

(** X1. The practice branch of [completeGame] gives the same three records
    whatever the order in which [forEach] visits the keys of [newLocks]. *)
Theorem practice_loop_any_order (type : string) (keys : list string)
    (prev : AppState) :
  NoDup keys →
  keys ≡ₚ Object_keys (newLocks (practice_ledger type prev)) →
  practice_loop type keys prev
  = practice_loop type (Object_keys (newLocks (practice_ledger type prev)))
      prev.
Proof. intros Hnd Hperm. by apply forEach_order_irrelevant. Qed.

Lemma practice_loop_any_order_witness :
  let keys := ["MAKE_TEN"; "NUMBER_HOP"; "DOUBLES"; "COUNT_UP"]%string in
  practice_loop "DOUBLES" keys INITIAL_STATE
  = practice_loop "DOUBLES"
      (Object_keys (newLocks (practice_ledger "DOUBLES" INITIAL_STATE)))
      INITIAL_STATE.
Proof.
  intros keys. apply (practice_loop_any_order "DOUBLES" keys INITIAL_STATE).
  - apply (bool_decide_unpack _). vm_compute. reflexivity.
  - vm_compute. symmetry.
    apply (Permutation_cons_append
             ["MAKE_TEN"; "NUMBER_HOP"; "DOUBLES"]%string "COUNT_UP"%string).
Defined.

(** ** Invariants of the three per-game records *)

Lemma GameType_key_games (t : GameType) :
  GameType_key t ∈ GameType_key <$> games.
Proof. apply list_elem_of_fmap. exists t. split; [done |]. destruct t; set_solver. Qed.

Lemma games_all (t : GameType) : t ∈ games.
Proof. destruct t; set_solver. Qed.

Lemma NoDup_games : NoDup games.
Proof. apply (bool_decide_unpack _). by vm_compute. Qed.

(** Every updater the handlers enqueue leaves the three records alone, is
    the practice updater of [completeGame], or puts back the initial
    state. *)
Lemma update_ledger_cases (e : Event) (st : AppState)
    (u : AppState → AppState) :
  u ∈ updates_of e st →
  (∀ s k, state_entry (u s) k = state_entry s k)
  ∨ (∃ r, ∀ s k, state_entry (u s) k = state_entry (completeGame false r s) k)
  ∨ (∀ s, u s = INITIAL_STATE).
Proof.
  destruct e as [isTest r | price itemId |]; simpl.
  - unfold completeGame_updates. intros Hu.
    apply elem_of_cons in Hu as [-> | Hu].
    + destruct isTest.
      * left. intros s k. unfold completeGame_update.
        by destruct (score r >=? _).
      * right. left. by exists r.
    + apply list_elem_of_singleton in Hu as ->. by left.
  - unfold buyItem_updates. destruct (_ && _).
    + intros ->%list_elem_of_singleton. by left.
    + destruct (includes _ _).
      * intros ->%list_elem_of_singleton. by left.
      * by intros ?%elem_of_nil.
  - unfold resetProgress_updates. intros ->%list_elem_of_singleton.
    by right; right.
Qed.

(** A property of the three records that the initial state has and a
    practice completion keeps holds in every state the App reaches. *)
Lemma reachable_ledger_invariant (P : AppState → Prop) :
  (∀ s s', (∀ k, state_entry s' k = state_entry s k) → P s → P s') →
  P INITIAL_STATE →
  (∀ r s, P s → P (completeGame false r s)) →
  ∀ st, reachable st → P st.
Proof.
  intros Hext Hinit Hpractice st Hr.
  induction Hr as [| st e st' Hr IH Hvalid Hin]; [done |].
  apply (snapshots_invariant P (updates_of e st) st st'); [| done | done].
  intros u s Hu Hs.
  destruct (update_ledger_cases e st u Hu) as [Hsame | [[r Hsame] | Hreset]].
  - by apply (Hext s).
  - apply (Hext (completeGame false r s)); [done |]. by apply Hpractice.
  - by rewrite Hreset.
Qed.

Lemma ledger_ok_initial : ledger_ok INITIAL_STATE.
Proof.
  intros k. destruct (decide (k ∈ GameType_key <$> games)) as [Hin | Hnin].
  - apply list_elem_of_fmap in Hin as (t & -> & _).
    replace (state_entry INITIAL_STATE (GameType_key t))
      with (Some false, Some 0, Some 0)
      by (destruct t; vm_compute; reflexivity).
    simpl. repeat split; try done; try lia. apply GameType_key_games.
  - assert (state_entry INITIAL_STATE k = (None, None, None)) as ->; [| done].
    assert (∀ t, GameType_key t ≠ k) as Hne.
    { intros t <-. apply Hnin, GameType_key_games. }
    pose proof (Hne MAKE_TEN). pose proof (Hne NUMBER_HOP).
    pose proof (Hne DOUBLES). pose proof (Hne COUNT_UP).
    unfold state_entry, INITIAL_STATE. simpl in *.
    by rewrite !lookup_insert_ne, !lookup_empty by done.
Qed.

Lemma ledger_ok_practice (r : TestResult) (s : AppState) :
  ledger_ok s → ledger_ok (completeGame false r s).
Proof.
  intros Hok k. specialize (Hok k).
  destruct (decide (k = GameType_key (gameType r))) as [-> | Hne].
  - rewrite practice_own_entry. unfold state_entry in Hok.
    destruct (isLocked s !! _) as [l |], (successCounts s !! _) as [c |],
      (otherSuccessesSinceLock s !! _) as [u |]; simpl in *; try done.
    + destruct Hok as (Hk & Hc & Hl & Hu & Hu2).
      case_geb; simpl; repeat split; try done; try lia.
      intros Hl'. apply Hl in Hl'. lia.
    + destruct Hok. apply GameType_key_games.
  - rewrite practice_other_entry by done. unfold state_entry in *.
    destruct (isLocked s !! k) as [l |], (successCounts s !! k) as [c |],
      (otherSuccessesSinceLock s !! k) as [u |]; simpl in *; try done.
    destruct Hok as (Hk & Hc & Hl & Hu & Hu2).
    rewrite bool_decide_eq_false_2 by done. rewrite andb_true_r.
    destruct l; simpl; [| done].
    case_geb; simpl; repeat split; try done; try lia.
Qed.

Lemma ledger_ok_ext (s s' : AppState) :
  (∀ k, state_entry s' k = state_entry s k) → ledger_ok s → ledger_ok s'.
Proof. intros Hsame Hok k. rewrite Hsame. apply Hok. Qed.

(** X2. In every state the App reaches each of the four games has an entry
    in all three per-game records, with a count that is not negative, the
    lock set exactly when the count is 5 or more, the counter of other
    successes between 0 and 2, and at 0 while the game is not locked; no
    other key has an entry. *)
Theorem reachable_ledger_shape (st : AppState) (t : GameType) (k : string) :
  reachable st →
  (∃ locked count counter,
     isLocked st !! GameType_key t = Some locked
     ∧ successCounts st !! GameType_key t = Some count
     ∧ otherSuccessesSinceLock st !! GameType_key t = Some counter
     ∧ 0 ≤ count
     ∧ (locked = true ↔ 5 ≤ count)
     ∧ (locked = false → counter = 0)
     ∧ 0 ≤ counter ≤ 2)
  ∧ (k ∉ GameType_key <$> games →
     isLocked st !! k = None ∧ successCounts st !! k = None
     ∧ otherSuccessesSinceLock st !! k = None).
Proof.
  intros Hr.
  assert (ledger_ok st) as Hok.
  { revert st Hr. apply reachable_ledger_invariant.
    - intros s s'. apply ledger_ok_ext.
    - apply ledger_ok_initial.
    - apply ledger_ok_practice. }
  split.
  - specialize (Hok (GameType_key t)). unfold state_entry in Hok.
    destruct (isLocked st !! _) as [l |], (successCounts st !! _) as [c |],
      (otherSuccessesSinceLock st !! _) as [u |]; simpl in *; try done.
    + exists l, c, u. by destruct Hok as (_ & ? & ? & ? & ?).
    + destruct Hok. apply GameType_key_games.
  - intros Hk. specialize (Hok k). unfold state_entry in Hok.
    by destruct (isLocked st !! _) as [l |], (successCounts st !! _) as [c |],
      (otherSuccessesSinceLock st !! _) as [u |]; simpl in *;
      try done; destruct Hok.
Qed.


Lemma reachable_ledger_shape_witness :
  let st := completeGame false (practice_result MAKE_TEN) INITIAL_STATE in
  (∃ locked count counter,
     isLocked st !! GameType_key MAKE_TEN = Some locked
     ∧ successCounts st !! GameType_key MAKE_TEN = Some count
     ∧ otherSuccessesSinceLock st !! GameType_key MAKE_TEN = Some counter
     ∧ 0 ≤ count
     ∧ (locked = true ↔ 5 ≤ count)
     ∧ (locked = false → counter = 0)
     ∧ 0 ≤ counter ≤ 2)
  ∧ ("toString"%string ∉ GameType_key <$> games →
     isLocked st !! "toString"%string = None
     ∧ successCounts st !! "toString"%string = None
     ∧ otherSuccessesSinceLock st !! "toString"%string = None).
Proof.
  intros st. apply (reachable_ledger_shape st MAKE_TEN "toString").
  apply (reachable_handle (Complete false (practice_result MAKE_TEN))
           INITIAL_STATE); [apply reachable_init |].
  vm_compute. discriminate.
Defined.

(** ** Some game is always open *)

Section Counting.
Context {A : Type} `{!EqDecision A} (P Q : A → Prop)
  `{!∀ x, Decision (P x)} `{!∀ x, Decision (Q x)}.

Lemma filter_none (l : list A) : (∀ x, x ∈ l → ¬ P x) → filter P l = [].
Proof.
  induction l as [| x l IH]; intros Hnone; [done |].
  rewrite filter_cons_False by (apply Hnone; left).
  apply IH. intros y Hy. apply Hnone. by right.
Qed.

Lemma filter_all (l : list A) : (∀ x, x ∈ l → P x) → filter P l = l.
Proof.
  induction l as [| x l IH]; intros Hall; [done |].
  rewrite filter_cons_True by (apply Hall; left).
  f_equal. apply IH. intros y Hy. apply Hall. by right.
Qed.

Lemma length_filter_impl (l : list A) :
  (∀ x, x ∈ l → P x → Q x) →
  (length (filter P l) ≤ length (filter Q l))%nat.
Proof.
  induction l as [| x l IH]; intros Himpl; [done |].
  rewrite !filter_cons.
  assert (length (filter P l) ≤ length (filter Q l))%nat as Hle.
  { apply IH. intros y Hy. apply Himpl. by right. }
  destruct (decide (P x)) as [HP | HP].
  - rewrite decide_True by (apply Himpl; [left | done]). simpl. lia.
  - destruct (decide (Q x)); simpl; lia.
Qed.

(** With one element left out of the comparison, at most one more. *)
Lemma length_filter_but_one (X : A) (l : list A) :
  NoDup l →
  (∀ x, x ∈ l → x ≠ X → P x → Q x) →
  (length (filter P l) ≤ S (length (filter Q l)))%nat.
Proof.
  induction l as [| x l IH]; intros Hnd Himpl; [simpl; lia |].
  apply NoDup_cons in Hnd as [Hx Hnd]. rewrite !filter_cons.
  destruct (decide (x = X)) as [-> | Hne].
  - assert (length (filter P l) ≤ length (filter Q l))%nat as Hle.
    { apply length_filter_impl. intros y Hy. apply Himpl; [by right |].
      by intros ->. }
    destruct (decide (P X)), (decide (Q X)); simpl; lia.
  - assert (length (filter P l) ≤ S (length (filter Q l)))%nat as Hle.
    { apply IH; [done |]. intros y Hy. apply Himpl. by right. }
    destruct (decide (P x)) as [HP | HP].
    + rewrite decide_True by (apply Himpl; [left | done | done]).
      simpl. lia.
    + destruct (decide (Q x)); simpl; lia.
Qed.

End Counting.

Lemma locked_within_ext (j : Z) (s s' : AppState) (t : GameType) :
  (∀ k, state_entry s' k = state_entry s k) →
  locked_within j s' t = locked_within j s t.
Proof.
  intros Hsame. specialize (Hsame (GameType_key t)).
  unfold state_entry in Hsame. injection Hsame as Hl _ Hu.
  unfold locked_within. by rewrite Hl, Hu.
Qed.

Lemma few_locked_ext (s s' : AppState) :
  (∀ k, state_entry s' k = state_entry s k) → few_locked s → few_locked s'.
Proof.
  intros Hsame Hfew j Hj. specialize (Hfew j Hj).
  erewrite (list_filter_iff _ (λ t, locked_within j s t = true)); [done |].
  intros t. by rewrite (locked_within_ext j s s' t Hsame).
Qed.

Lemma few_locked_initial : few_locked INITIAL_STATE.
Proof.
  intros j Hj.
  rewrite filter_none; [simpl; lia |].
  intros t _. unfold locked_within.
  replace (truthy (isLocked INITIAL_STATE !! GameType_key t)) with false;
    [done |]. by destruct t.
Qed.

(** No game is locked with a negative counter. *)
Lemma locked_within_negative (j : Z) (s : AppState) (t : GameType) :
  ledger_ok s → j < 0 → locked_within j s t = false.
Proof.
  intros Hok Hj. specialize (Hok (GameType_key t)).
  unfold locked_within, state_entry in *.
  destruct (isLocked s !! _) as [l |], (successCounts s !! _) as [c |],
    (otherSuccessesSinceLock s !! _) as [u |]; simpl in *; try done.
  destruct Hok as (_ & _ & _ & _ & Hu). apply andb_false_iff. right.
  apply Z.leb_gt. lia.
Qed.

(** After a practice completion a game other than the one played is locked
    within [j] only if it was locked within [j - 1]. *)
Lemma locked_within_practice (j : Z) (r : TestResult) (s : AppState)
    (t : GameType) :
  ledger_ok s → t ≠ gameType r →
  locked_within j (completeGame false r s) t = true →
  locked_within (j - 1) s t = true.
Proof.
  intros Hok Hne Hlw.
  pose proof (GameType_key_ne t (gameType r) Hne) as Hk.
  pose proof (practice_other_entry r s (GameType_key t) Hk) as Hstep.
  specialize (Hok (GameType_key t)).
  remember (completeGame false r s) as s' eqn:Hs'. clear Hs'.
  unfold locked_within in *. unfold state_entry in Hstep, Hok.
  destruct (isLocked s !! _) as [l |], (successCounts s !! _) as [c |],
    (otherSuccessesSinceLock s !! _) as [u |]; try done;
    [| by destruct Hok; apply GameType_key_games].
  destruct Hok as (_ & _ & _ & Hu0 & Hu).
  unfold entry_step in Hstep.
  rewrite bool_decide_eq_false_2 in Hstep by done.
  destruct l; simpl in Hstep.
  - destruct (u + 1 >=? 3) eqn:Hge; injection Hstep as Hl' _ Hu'.
    + rewrite Hl' in Hlw. done.
    + rewrite Hl', Hu' in Hlw. simpl in *.
      apply Z.leb_le. apply Z.leb_le in Hlw. lia.
  - injection Hstep as Hl' _ _. rewrite Hl' in Hlw. done.
Qed.

Lemma few_locked_practice (r : TestResult) (s : AppState) :
  ledger_ok s → few_locked s → few_locked (completeGame false r s).
Proof.
  intros Hok Hfew j Hj.
  pose proof (length_filter_but_one
                (λ t, locked_within j (completeGame false r s) t = true)
                (λ t, locked_within (j - 1) s t = true)
                (gameType r) games NoDup_games) as Hcount.
  assert (Z.of_nat (length (filter
            (λ t, locked_within (j - 1) s t = true) games)) ≤ j) as Hprev.
  { destruct (decide (j = 0)) as [-> | Hj0].
    - rewrite filter_none; [done |]. intros t _.
      rewrite locked_within_negative; [done | done | lia].
    - specialize (Hfew (j - 1)). lia. }
  assert (length (filter
            (λ t, locked_within j (completeGame false r s) t = true) games)
          ≤ S (length (filter
            (λ t, locked_within (j - 1) s t = true) games)))%nat as Hle.
  { apply Hcount. intros t _ Hne. by apply locked_within_practice. }
  lia.
Qed.

Lemma reachable_few_locked (st : AppState) :
  reachable st → ledger_ok st ∧ few_locked st.
Proof.
  revert st. apply reachable_ledger_invariant.
  - intros s s' Hsame [Hok Hfew].
    split; [by apply (ledger_ok_ext s) | by apply (few_locked_ext s)].
  - split; [apply ledger_ok_initial | apply few_locked_initial].
  - intros r s [Hok Hfew].
    split; [by apply ledger_ok_practice | by apply few_locked_practice].
Qed.

(** X3. In every state the App reaches at least one of the four games is
    not locked, so [startGame] opens a practice session for it. *)
Theorem some_game_open (app : App) (mode : PlayMode) :
  reachable (state app) →
  ∃ t, truthy (isLocked (state app) !! GameType_key t) = false
       ∧ currentView (startGame t mode false app) = game
       ∧ activeGame (startGame t mode false app) = Some t.
Proof.
  intros Hr. destruct (reachable_few_locked _ Hr) as [Hok Hfew].
  assert (∃ t, truthy (isLocked (state app) !! GameType_key t) = false)
    as [t Ht].
  { destruct (decide (Forall (λ t, truthy (isLocked (state app)
                                    !! GameType_key t) = true) games))
      as [Hall | Hsome].
    - exfalso. specialize (Hfew 2).
      assert (filter (λ t, locked_within 2 (state app) t = true) games
              = games) as Heq.
      { apply filter_all. rewrite Forall_forall in Hall.
        intros t Ht.
        specialize (Hall t Ht). specialize (Hok (GameType_key t)).
        unfold locked_within, state_entry in *. rewrite Hall. simpl.
        destruct (isLocked (state app) !! _) as [l |],
          (successCounts (state app) !! _) as [c |],
          (otherSuccessesSinceLock (state app) !! _) as [u |];
          simpl in *; try done.
        apply Z.leb_le. lia. }
      rewrite Heq in Hfew. simpl in Hfew. lia.
    - apply not_Forall_Exists in Hsome; [| apply _].
      apply Exists_exists in Hsome as (t & _ & Ht). exists t.
      by apply not_true_is_false. }
  exists t. split; [done |]. unfold startGame. by rewrite Ht.
Qed.

Lemma some_game_open_witness :
  let app :=
    {| state :=
         run (replicate 5 (Complete false (practice_result DOUBLES)))
           INITIAL_STATE;
       currentView := hub;
       activeGame := Some DOUBLES;
       playMode := STREAK;
       isTestMode := false;
       lastGameResult := Some (practice_result DOUBLES) |} in
  ∃ t, truthy (isLocked (state app) !! GameType_key t) = false
       ∧ currentView (startGame t FREE false app) = game
       ∧ activeGame (startGame t FREE false app) = Some t.
Proof.
  intros app. apply (some_game_open app FREE).
  apply reachable_run; [apply reachable_init |].
  repeat constructor; vm_compute; discriminate.
Defined.

(** ** What a completion leaves alone *)

Lemma test_completion_state_entry (r : TestResult) (st : AppState)
    (k : string) :
  state_entry (completeGame true r st) k = state_entry st k.
Proof.
  rewrite completeGame_unfold, addEmeralds_state_entry.
  unfold completeGame_update. by destruct (score r >=? _).
Qed.

Lemma buyItem_state_entry (price : Z) (itemId : string) (st : AppState)
    (k : string) :
  state_entry (buyItem price itemId st) k = state_entry st k.
Proof.
  unfold buyItem, handle, updates_of, buyItem_updates.
  destruct (_ && _); [done |]. by destruct (includes _ _).
Qed.

(** X4. A practice completion of a game changes nothing in the entries of
    another game that is not locked, never locks a game other than the one
    played, and never unlocks the one played, whose count goes up by one. *)
Theorem practice_frame (r : TestResult) (st : AppState) (k : string) :
  let own := GameType_key (gameType r) in
  (k ≠ own → truthy (isLocked st !! k) = false →
   state_entry (completeGame false r st) k = state_entry st k)
  ∧ (k ≠ own → truthy (isLocked (completeGame false r st) !! k) = true →
     truthy (isLocked st !! k) = true)
  ∧ (truthy (isLocked st !! own) = true →
     truthy (isLocked (completeGame false r st) !! own) = true)
  ∧ successCounts (completeGame false r st) !! own
    = Some (or0 (successCounts st !! own) + 1).
Proof.
  intros own. repeat split.
  - intros Hne Hopen. rewrite practice_other_entry by done.
    unfold state_entry, entry_step. by rewrite Hopen.
  - intros Hne. pose proof (practice_other_entry r st k Hne) as Hstep.
    fold own in Hstep. remember (completeGame false r st) as st'.
    unfold state_entry, entry_step in Hstep.
    destruct (truthy (isLocked st !! k)) eqn:Hopen; [done |].
    simpl in Hstep. injection Hstep as Hl _ _. by rewrite Hl, Hopen.
  - intros Hlocked. pose proof (practice_own_entry r st) as Hstep.
    fold own in Hstep. remember (completeGame false r st) as st'.
    unfold state_entry in Hstep. simpl in Hstep.
    injection Hstep as -> _ _. by destruct (_ >=? 5).
  - pose proof (practice_own_entry r st) as Hstep.
    fold own in Hstep. remember (completeGame false r st) as st'.
    unfold state_entry in Hstep. simpl in Hstep.
    by injection Hstep as _ -> _.
Qed.

Lemma practice_frame_witness :
  let r := practice_result DOUBLES in
  let st :=
    run (replicate 5 (Complete false (practice_result MAKE_TEN)))
      INITIAL_STATE in
  state_entry (completeGame false r st) "COUNT_UP"
  = state_entry st "COUNT_UP"
  ∧ truthy (isLocked (completeGame false (practice_result MAKE_TEN) st)
            !! "MAKE_TEN") = true.
Proof.
  intros r st. split.
  - apply (practice_frame r st "COUNT_UP");
      [discriminate | vm_compute; reflexivity].
  - apply (practice_frame (practice_result MAKE_TEN) st "MAKE_TEN").
    vm_compute. reflexivity.
Defined.

(** One event other than a reset, seen from a game that is not locked. *)
Lemma handle_open_game (v : GameType) (e : Event) (s : AppState) :
  e ≠ Reset →
  truthy (isLocked s !! GameType_key v) = false →
  (is_practice_of v e = true →
   successCounts (handle e s) !! GameType_key v
   = Some (or0 (successCounts s !! GameType_key v) + 1)
   ∧ (or0 (successCounts s !! GameType_key v) + 1 < 5 →
      truthy (isLocked (handle e s) !! GameType_key v) = false))
  ∧ (is_practice_of v e = false →
     state_entry (handle e s) (GameType_key v)
     = state_entry s (GameType_key v)).
Proof.
  intros Hreset Hopen.
  destruct e as [[] r | price itemId |]; unfold is_practice_of;
    [| | | done].
  - split; [done |]. intros _. rewrite handle_Complete.
    apply test_completion_state_entry.
  - rewrite handle_Complete. split.
    + intros <-%bool_decide_eq_true.
      pose proof (practice_own_entry r s) as Hstep.
      remember (completeGame false r s) as s'.
      unfold state_entry in Hstep. simpl in Hstep.
      injection Hstep as Hl -> _. split; [done |].
      intros Hlt. rewrite Hl.
      destruct (_ >=? 5) eqn:Hge; [| done]. apply Z.geb_le in Hge. lia.
    + intros Hne%bool_decide_eq_false.
      rewrite practice_other_entry
        by (apply GameType_key_ne; congruence).
      unfold state_entry, entry_step. by rewrite Hopen.
  - split; [done |]. intros _. apply buyItem_state_entry.
Qed.

(** X5. The practice successes of a game need not be consecutive. Over any
    sequence of events with no reset in it, while the count of a game that
    is not locked stays below 5 it is the count it had plus the number of
    practice completions of that game in the sequence, whatever other
    completions, tests and purchases come in between, and the game stays
    open. *)
Theorem practice_successes_accumulate (v : GameType) (events : list Event)
    (st : AppState) :
  Reset ∉ events →
  truthy (isLocked st !! GameType_key v) = false →
  or0 (successCounts st !! GameType_key v) + practice_count v events < 5 →
  or0 (successCounts (run events st) !! GameType_key v)
  = or0 (successCounts st !! GameType_key v) + practice_count v events
  ∧ truthy (isLocked (run events st) !! GameType_key v) = false.
Proof.
  revert st. induction events as [| e events IH]; intros st Hreset Hopen Hlt.
  - rewrite run_nil. unfold practice_count. simpl. split; [lia | done].
  - apply not_elem_of_cons in Hreset as [Hne Hreset].
    assert (e ≠ Reset) as Hne' by congruence.
    destruct (handle_open_game v e st Hne' Hopen) as [Hyes Hno].
    rewrite run_cons. unfold practice_count in *. rewrite filter_cons in *.
    destruct (decide (is_practice_of v e = true)) as [Hp | Hp].
    + destruct (Hyes Hp) as [Hcount Hstill]. simpl length in *.
      destruct (IH (handle e st)) as [IHc IHl]; [done | | |].
      * apply Hstill. lia.
      * rewrite Hcount. simpl. lia.
      * rewrite IHc, Hcount. simpl. split; [lia | done].
    + apply not_true_is_false in Hp. specialize (Hno Hp).
      unfold state_entry in Hno. injection Hno as Hl Hc _.
      destruct (IH (handle e st)) as [IHc IHl]; [done | | |].
      * by rewrite Hl.
      * by rewrite Hc.
      * by rewrite IHc, Hc.
Qed.

Lemma practice_successes_accumulate_witness :
  let events :=
    [Complete false (practice_result DOUBLES);
     Complete false (practice_result MAKE_TEN);
     Complete true (finalResult true INITIAL_SETTINGS 10 0 DOUBLES);
     Buy 10 "wood-tile";
     Complete false (practice_result DOUBLES)] in
  or0 (successCounts (run events INITIAL_STATE) !! GameType_key DOUBLES)
  = or0 (successCounts INITIAL_STATE !! GameType_key DOUBLES)
    + practice_count DOUBLES events
  ∧ truthy (isLocked (run events INITIAL_STATE) !! GameType_key DOUBLES)
    = false.
Proof.
  intros events.
  apply (practice_successes_accumulate DOUBLES events INITIAL_STATE).
  - intros Hin.
    repeat (apply elem_of_cons in Hin as [Hin | Hin]; [discriminate |]).
    by apply elem_of_nil in Hin.
  - vm_compute. reflexivity.
  - vm_compute. reflexivity.
Defined.

(** ** The count-down to an unlock *)

Lemma other_successes_below_three (v : GameType) (rs : list TestResult)
    (st : AppState) :
  Forall (λ r, gameType r ≠ v) rs →
  truthy (isLocked st !! GameType_key v) = true →
  or0 (otherSuccessesSinceLock st !! GameType_key v)
  + Z.of_nat (length rs) < 3 →
  truthy (isLocked (run (Complete false <$> rs) st) !! GameType_key v) = true
  ∧ or0 (otherSuccessesSinceLock (run (Complete false <$> rs) st)
         !! GameType_key v)
    = or0 (otherSuccessesSinceLock st !! GameType_key v)
      + Z.of_nat (length rs)
  ∧ successCounts (run (Complete false <$> rs) st) !! GameType_key v
    = successCounts st !! GameType_key v.
Proof.
  revert st. induction rs as [| r rs IH]; intros st Hall Hlocked Hlt.
  - rewrite fmap_nil, run_nil. simpl. split; [done |]. split; [lia | done].
  - apply Forall_cons in Hall as [Hr Hall].
    rewrite fmap_cons, run_cons, handle_Complete.
    pose proof (practice_other_step v r st _ Hr Hlocked eq_refl) as Hstep.
    remember (completeGame false r st) as st1.
    rewrite length_cons, Nat2Z.inj_succ in *.
    revert Hstep. case_geb; [lia |]. unfold state_entry.
    intros [= Hl Hc Hu].
    destruct (IH st1) as (IHl & IHu & IHc); [done | by rewrite Hl | |].
    + rewrite Hu. simpl. lia.
    + rewrite IHl, IHu, IHc, Hu, Hc. simpl. split; [done |].
      split; [lia | done].
Qed.

Lemma other_successes_reach_three (v : GameType) (rs : list TestResult)
    (st : AppState) :
  Forall (λ r, gameType r ≠ v) rs →
  truthy (isLocked st !! GameType_key v) = true →
  rs ≠ [] →
  or0 (otherSuccessesSinceLock st !! GameType_key v)
  + Z.of_nat (length rs) = 3 →
  state_entry (run (Complete false <$> rs) st) (GameType_key v)
  = (Some false, Some 0, Some 0).
Proof.
  revert st. induction rs as [| r rs IH]; intros st Hall Hlocked Hne Hsum;
    [done |].
  apply Forall_cons in Hall as [Hr Hall].
  rewrite fmap_cons, run_cons, handle_Complete.
  pose proof (practice_other_step v r st _ Hr Hlocked eq_refl) as Hstep.
  remember (completeGame false r st) as st1.
  rewrite length_cons, Nat2Z.inj_succ in *.
  destruct rs as [| r' rs].
  - rewrite fmap_nil, run_nil. revert Hstep. simpl in Hsum.
    case_geb; [done | lia].
  - revert Hstep. rewrite length_cons, Nat2Z.inj_succ in Hsum.
    case_geb; [lia |]. unfold state_entry. intros [= Hl Hc Hu].
    apply IH; [done | by rewrite Hl | done |].
    rewrite Hu, length_cons, Nat2Z.inj_succ. simpl. lia.
Qed.

(** X6. A locked game with [p] other successes counted stays locked, with
    its count as it was and the counter at [p + n], through [n] practice
    completions of other games as long as [p + n] is below 3; the
    completion that brings [p + n] to 3 unlocks it and puts its count and
    its counter at 0. *)
Theorem other_successes_count_down (v : GameType) (rs : list TestResult)
    (st : AppState) :
  Forall (λ r, gameType r ≠ v) rs →
  truthy (isLocked st !! GameType_key v) = true →
  let p := or0 (otherSuccessesSinceLock st !! GameType_key v) in
  let n := Z.of_nat (length rs) in
  let st' := run (Complete false <$> rs) st in
  (p + n < 3 →
   truthy (isLocked st' !! GameType_key v) = true
   ∧ or0 (otherSuccessesSinceLock st' !! GameType_key v) = p + n
   ∧ successCounts st' !! GameType_key v
     = successCounts st !! GameType_key v)
  ∧ (rs ≠ [] → p + n = 3 →
     isLocked st' !! GameType_key v = Some false
     ∧ successCounts st' !! GameType_key v = Some 0
     ∧ otherSuccessesSinceLock st' !! GameType_key v = Some 0).
Proof.
  intros Hall Hlocked p n st'. split.
  - intros Hlt. by apply other_successes_below_three.
  - intros Hne Hsum.
    pose proof (other_successes_reach_three v rs st Hall Hlocked Hne Hsum)
      as Hend.
    fold st' in Hend. remember st' as s. unfold state_entry in Hend.
    by injection Hend as -> -> ->.
Qed.

Lemma other_successes_count_down_witness :
  let st :=
    run (replicate 5 (Complete false (practice_result MAKE_TEN))
         ++ [Complete false (practice_result DOUBLES)]) INITIAL_STATE in
  let one := [practice_result COUNT_UP] in
  let two := [practice_result COUNT_UP; practice_result DOUBLES] in
  (truthy (isLocked (run (Complete false <$> one) st)
           !! GameType_key MAKE_TEN) = true
   ∧ or0 (otherSuccessesSinceLock (run (Complete false <$> one) st)
          !! GameType_key MAKE_TEN) = 1 + 1
   ∧ successCounts (run (Complete false <$> one) st)
     !! GameType_key MAKE_TEN
     = successCounts st !! GameType_key MAKE_TEN)
  ∧ (isLocked (run (Complete false <$> two) st) !! GameType_key MAKE_TEN
     = Some false
     ∧ successCounts (run (Complete false <$> two) st)
       !! GameType_key MAKE_TEN = Some 0
     ∧ otherSuccessesSinceLock (run (Complete false <$> two) st)
       !! GameType_key MAKE_TEN = Some 0).
Proof.
  intros st one two. split.
  - apply (other_successes_count_down MAKE_TEN one st);
      [repeat constructor; discriminate | vm_compute; reflexivity
      | vm_compute; reflexivity].
  - apply (other_successes_count_down MAKE_TEN two st);
      [repeat constructor; discriminate | vm_compute; reflexivity
      | discriminate | vm_compute; reflexivity].
Defined.

(** ** Experience and level over time *)

Lemma handle_xp (e : Event) (st : AppState) :
  valid_event e → e ≠ Reset → xp st ≤ xp (handle e st).
Proof.
  intros Hvalid Hreset. destruct e as [isTest r | price itemId |]; [| | done].
  - rewrite handle_Complete.
    destruct (completeGame_reward_fields isTest r st) as (_ & -> & _).
    simpl in Hvalid.
    assert (0 ≤ score r / 10) by (apply Z.div_pos; lia). lia.
  - fold (buyItem price itemId st).
    destruct (buyItem_cases price itemId st)
      as [(_ & _ & ->) | [(_ & ->) | (_ & _ & ->)]]; simpl; lia.
Qed.

Lemma run_xp (events : list Event) (st : AppState) :
  Forall valid_event events → Reset ∉ events → xp st ≤ xp (run events st).
Proof.
  revert st. induction events as [| e events IH]; intros st Hall Hreset.
  - rewrite run_nil. lia.
  - apply Forall_cons in Hall as [Hvalid Hall].
    apply not_elem_of_cons in Hreset as [Hne Hreset].
    rewrite run_cons. etrans; [| by apply IH].
    apply handle_xp; [done | congruence].
Qed.

Lemma reachable_xp (st : AppState) : reachable st → 0 ≤ xp st.
Proof.
  intros Hr. induction Hr as [| st e st' Hr IH Hvalid Hin]; [done |].
  destruct e as [isTest r | price itemId |]; simpl in Hin, Hvalid.
  - apply elem_of_cons in Hin as [-> | Hin].
    + by destruct (completeGame_update_reward_fields isTest r st)
        as (_ & -> & _).
    + apply list_elem_of_singleton in Hin as ->.
      destruct (completeGame_update_reward_fields isTest r st)
        as (_ & Hx & _).
      unfold addEmeralds_update. simpl. rewrite Hx.
      assert (0 ≤ score r / 10) by (apply Z.div_pos; lia). lia.
  - unfold buyItem_updates in Hin. destruct (_ && _).
    + by apply list_elem_of_singleton in Hin as ->.
    + destruct (includes _ _).
      * by apply list_elem_of_singleton in Hin as ->.
      * by apply elem_of_nil in Hin.
  - by apply list_elem_of_singleton in Hin as ->.
Qed.

(** X7. In every state the App reaches the xp is not negative and the level
    is at least 1, and from such a state no sequence of completions and
    purchases (no reset) lowers the xp or the level. *)
Theorem xp_and_level_never_drop (st : AppState) (events : list Event) :
  reachable st →
  Forall valid_event events →
  Reset ∉ events →
  0 ≤ xp st ∧ 1 ≤ level st
  ∧ xp st ≤ xp (run events st)
  ∧ level st ≤ level (run events st).
Proof.
  intros Hr Hall Hreset.
  pose proof (reachable_xp st Hr) as Hx0.
  pose proof (run_xp events st Hall Hreset) as Hmono.
  rewrite (reachable_level st Hr).
  rewrite (reachable_level _ (reachable_run events st Hr Hall)).
  assert (0 ≤ xp st / 100) by (apply Z.div_pos; lia).
  assert (xp st / 100 ≤ xp (run events st) / 100)
    by (apply Z.div_le_mono; lia).
  repeat split; lia.
Qed.

Lemma xp_and_level_never_drop_witness :
  let st := completeGame false (practice_result MAKE_TEN) INITIAL_STATE in
  let events :=
    [Buy 10 "wood-tile"%string;
     Complete true (finalResult true INITIAL_SETTINGS 10 0 DOUBLES)] in
  0 ≤ xp st ∧ 1 ≤ level st
  ∧ xp st ≤ xp (run events st)
  ∧ level st ≤ level (run events st).
Proof.
  intros st events. apply (xp_and_level_never_drop st events).
  - apply (reachable_handle (Complete false (practice_result MAKE_TEN))
             INITIAL_STATE); [apply reachable_init |].
    vm_compute. discriminate.
  - repeat constructor. vm_compute. discriminate.
  - intros Hin.
    repeat (apply elem_of_cons in Hin as [Hin | Hin]; [discriminate |]).
    by apply elem_of_nil in Hin.
Defined.

(** ** The owned items *)

Lemma reachable_items (st : AppState) :
  reachable st →
  NoDup (unlockedItems st)
  ∧ equippedItem st ∈ unlockedItems st
  ∧ "base-char"%string ∈ unlockedItems st.
Proof.
  intros Hr. induction Hr as [| st e st' Hr IH Hvalid Hin].
  - simpl. split; [apply NoDup_singleton |]. split; set_solver.
  - destruct IH as (Hnd & Heq & Hbase).
    destruct e as [isTest r | price itemId |]; simpl in Hin.
    + assert (unlockedItems st' = unlockedItems st
              ∧ equippedItem st' = equippedItem st) as [-> ->]; [| done].
      apply elem_of_cons in Hin as [-> | Hin].
      * unfold completeGame_update. destruct isTest; [| done].
        by destruct (score r >=? _).
      * apply list_elem_of_singleton in Hin as ->.
        unfold completeGame_update, addEmeralds_update.
        destruct isTest; [| done]. by destruct (score r >=? _).
    + unfold buyItem_updates in Hin.
      destruct (includes itemId (unlockedItems st)) eqn:Hinc.
      * rewrite andb_false_r in Hin.
        apply list_elem_of_singleton in Hin as ->. simpl.
        apply includes_true in Hinc. done.
      * rewrite andb_true_r in Hin. apply includes_false in Hinc.
        destruct (emeralds st >=? price); [| by apply elem_of_nil in Hin].
        apply list_elem_of_singleton in Hin as ->. simpl.
        split; [| set_solver].
        apply NoDup_app. split; [done |].
        split; [| apply NoDup_singleton].
        intros x Hx ->%list_elem_of_singleton. done.
    + apply list_elem_of_singleton in Hin as ->. simpl.
      split; [apply NoDup_singleton |]. split; set_solver.
Qed.

Lemma handle_items_prefix (e : Event) (st : AppState) :
  e ≠ Reset → unlockedItems st `prefix_of` unlockedItems (handle e st).
Proof.
  intros Hreset. destruct e as [isTest r | price itemId |]; [| | done].
  - rewrite handle_Complete, completeGame_unfold.
    unfold addEmeralds_update, completeGame_update. simpl.
    destruct isTest; [| done]. by destruct (score r >=? _).
  - fold (buyItem price itemId st).
    destruct (buyItem_cases price itemId st)
      as [(_ & _ & ->) | [(_ & ->) | (_ & _ & ->)]]; simpl; try done.
    by apply prefix_app_r.
Qed.

(** X8. In every state the App reaches the owned items are listed without
    repetition, the equipped item is one of them, and so is ["base-char"];
    completions and purchases only ever add to the end of the list. *)
Theorem owned_items_invariant (st : AppState) (events : list Event) :
  (reachable st →
   NoDup (unlockedItems st)
   ∧ equippedItem st ∈ unlockedItems st
   ∧ "base-char"%string ∈ unlockedItems st)
  ∧ (Reset ∉ events →
     unlockedItems st `prefix_of` unlockedItems (run events st)).
Proof.
  split; [apply reachable_items |].
  revert st. induction events as [| e events IH]; intros st Hreset.
  - by rewrite run_nil.
  - apply not_elem_of_cons in Hreset as [Hne Hreset].
    rewrite run_cons. etrans; [| by apply IH].
    apply handle_items_prefix. congruence.
Qed.

Lemma owned_items_invariant_witness :
  let st := run [Complete false (practice_result MAKE_TEN);
                 Buy 10 "wood-tile"%string] INITIAL_STATE in
  let events := [Buy 10 "wood-tile"%string;
                 Complete false (practice_result DOUBLES)] in
  (NoDup (unlockedItems st)
   ∧ equippedItem st ∈ unlockedItems st
   ∧ "base-char"%string ∈ unlockedItems st)
  ∧ unlockedItems st `prefix_of` unlockedItems (run events st).
Proof.
  intros st events.
  destruct (owned_items_invariant st events) as [Hinv Hprefix].
  split.
  - apply Hinv. apply reachable_run; [apply reachable_init |].
    repeat constructor. vm_compute. discriminate.
  - apply Hprefix. intros Hin.
    repeat (apply elem_of_cons in Hin as [Hin | Hin]; [discriminate |]).
    by apply elem_of_nil in Hin.
Defined.

(** ** Emeralds earned and spent *)

Lemma price_of_SHOP_ITEMS (itemId : string) (price : Z) :
  (itemId, price) ∈ SHOP_ITEMS → price_of itemId = price.
Proof.
  intros Hin. unfold SHOP_ITEMS in Hin.
  repeat (apply elem_of_cons in Hin as [[= -> ->] | Hin];
          [by vm_compute |]).
  by apply elem_of_nil in Hin.
Qed.

Lemma owned_value_snoc (itemId : string) (l : list string) :
  foldr (λ itemId total, price_of itemId + total) 0 (l ++ [itemId])
  = foldr (λ itemId total, price_of itemId + total) 0 l + price_of itemId.
Proof. induction l as [| x l IH]; simpl; lia. Qed.

Lemma handle_conserves (e : Event) (st : AppState) :
  shop_event e →
  xp st = 5 * (emeralds st + owned_value st) →
  xp (handle e st) = 5 * (emeralds (handle e st) + owned_value (handle e st)).
Proof.
  intros Hshop Hinv. destruct e as [isTest r | price itemId |]; [| | done].
  - rewrite handle_Complete.
    destruct (completeGame_reward_fields isTest r st) as (-> & -> & _).
    replace (owned_value (completeGame isTest r st)) with (owned_value st);
      [lia |].
    unfold owned_value. rewrite completeGame_unfold.
    unfold addEmeralds_update, completeGame_update. simpl.
    destruct isTest; [| done]. by destruct (score r >=? _).
  - fold (buyItem price itemId st). simpl in Hshop.
    destruct (buyItem_cases price itemId st)
      as [(_ & _ & ->) | [(_ & ->) | (_ & _ & ->)]]; try done.
    unfold owned_value in *. simpl.
    rewrite owned_value_snoc, (price_of_SHOP_ITEMS _ _ Hshop). lia.
Qed.

(** X9. Whatever sequence of completions, shop purchases and resets the App
    goes through from the initial state, the xp is five times the emeralds
    in hand plus the [SHOP_ITEMS] prices of the owned items: every emerald
    earned is either still there or was paid for an owned item. *)
Theorem emeralds_are_conserved (events : list Event) :
  Forall shop_event events →
  let st := run events INITIAL_STATE in
  xp st = 5 * (emeralds st + owned_value st).
Proof.
  intros Hall. simpl.
  assert (xp INITIAL_STATE
          = 5 * (emeralds INITIAL_STATE + owned_value INITIAL_STATE)) as Hinit
    by (by vm_compute).
  revert Hinit. generalize INITIAL_STATE. revert Hall.
  induction events as [| e events IH]; intros Hall st Hinv; [done |].
  apply Forall_cons in Hall as [Hshop Hall]. rewrite run_cons.
  apply IH; [done |]. by apply handle_conserves.
Qed.

Lemma emeralds_are_conserved_witness :
  let events :=
    [Complete false (practice_result MAKE_TEN);
     Complete true (finalResult true INITIAL_SETTINGS 10 0 DOUBLES);
     Buy 10 "wood-tile"%string;
     Buy 25 "stone-tile"%string;
     Buy 10 "wood-tile"%string] in
  let st := run events INITIAL_STATE in
  xp st = 5 * (emeralds st + owned_value st).
Proof.
  intros events. apply (emeralds_are_conserved events).
  repeat constructor; simpl; set_solver.
Defined.

(** ** Buying twice *)

(** X10. Clicking the same item twice in a row leaves the state the first
    click left: the second click of a purchase only equips again what is
    already equipped, and a click that could not be afforded still cannot. *)
Theorem buyItem_twice (price : Z) (itemId : string) (st : AppState) :
  buyItem price itemId (buyItem price itemId st) = buyItem price itemId st.
Proof.
  destruct (buyItem_cases price itemId st)
    as [(Hp & Hnew & Hbuy) | [(Hown & Hbuy) | (Hp & Hnew & Hbuy)]];
    rewrite Hbuy.
  - match goal with |- buyItem _ _ ?s = _ =>
      destruct (buyItem_cases price itemId s)
        as [(_ & Hnew' & _) | [(_ & ->) | (_ & Hnew' & _)]]
    end; simpl in *; [| done |]; exfalso; apply Hnew'; set_solver.
  - match goal with |- buyItem _ _ ?s = _ =>
      destruct (buyItem_cases price itemId s)
        as [(_ & Hnew' & _) | [(_ & ->) | (_ & Hnew' & _)]]
    end; simpl in *; [| done |]; exfalso; by apply Hnew'.
  - by rewrite Hbuy.
Qed.

(** ** What the shop shows after a click *)

(** X11. After a click on an item that is owned or can be afforded, the shop
    labels that item EQUIPPED and labels no item with another id EQUIPPED;
    after a click on an item that is neither, every label is as before. *)
Theorem label_after_click (price : Z) (itemId : string) (st : AppState)
    (other : string * Z) :
  let st' := buyItem price itemId st in
  (itemId ∈ unlockedItems st ∨ price ≤ emeralds st →
   ShopScreen_label (unlockedItems st') (equippedItem st') (itemId, price)
   = EQUIPPED
   ∧ (other.1 ≠ itemId →
      ShopScreen_label (unlockedItems st') (equippedItem st') other
      ≠ EQUIPPED))
  ∧ (itemId ∉ unlockedItems st → emeralds st < price →
     ShopScreen_label (unlockedItems st') (equippedItem st') other
     = ShopScreen_label (unlockedItems st) (equippedItem st) other).
Proof.
  intros st'. unfold st', ShopScreen_label.
  destruct (buyItem_cases price itemId st)
    as [(Hp & Hnew & ->) | [(Hown & ->) | (Hp & Hnew & ->)]]; simpl.
  - split; [| intros; lia]. intros _.
    rewrite (proj2 (includes_true itemId _)) by set_solver.
    rewrite bool_decide_eq_true_2 by done. split; [done |].
    intros Hne. destruct (includes _ _); [| done].
    by rewrite bool_decide_eq_false_2.
  - split; [| done]. intros _.
    rewrite (proj2 (includes_true itemId _)) by done.
    rewrite bool_decide_eq_true_2 by done. split; [done |].
    intros Hne. destruct (includes _ _); [| done].
    by rewrite bool_decide_eq_false_2.
  - split; [| done]. intros [? | ?]; [done | lia].
Qed.

Lemma label_after_click_witness :
  let st := completeGame false (practice_result MAKE_TEN) INITIAL_STATE in
  let st' := buyItem 10 "wood-tile" st in
  let st'' := buyItem 500 "diamond-block" st in
  (ShopScreen_label (unlockedItems st') (equippedItem st')
     ("wood-tile"%string, 10) = EQUIPPED
   ∧ ShopScreen_label (unlockedItems st') (equippedItem st')
       ("steve"%string, 50) ≠ EQUIPPED)
  ∧ ShopScreen_label (unlockedItems st'') (equippedItem st'')
      ("steve"%string, 50)
    = ShopScreen_label (unlockedItems st) (equippedItem st)
        ("steve"%string, 50).
Proof.
  intros st st' st''. split.
  - destruct (label_after_click 10 "wood-tile" st ("steve"%string, 50))
      as [Hyes _].
    destruct Hyes as [Hlabel Hother]; [right; vm_compute; discriminate |].
    split; [exact Hlabel | apply Hother; discriminate].
  - apply (label_after_click 500 "diamond-block" st ("steve"%string, 50)).
    + apply includes_false. vm_compute. reflexivity.
    + vm_compute. reflexivity.
Defined.

(** ** The diamond sword *)

Lemma reachable_testScores_keys (st : AppState) (k : string) :
  reachable st → is_Some (testScores st !! k) → k ∈ GameType_key <$> games.
Proof.
  intros Hr. revert k.
  induction Hr as [| st e st' Hr IH Hvalid Hin]; intros k.
  - simpl. rewrite lookup_empty. by intros [? ?].
  - revert k. apply (snapshots_invariant
      (λ s, ∀ k, is_Some (testScores s !! k) → k ∈ GameType_key <$> games)
      (updates_of e st) st st'); [| done | done].
    intros u s Hu Hs k. destruct e as [isTest r | price itemId |];
      simpl in Hu.
    + apply elem_of_cons in Hu as [-> | Hu].
      * unfold completeGame_update. destruct isTest; [| apply Hs].
        destruct (score r >=? _); [| apply Hs]. simpl.
        destruct (decide (GameType_key (gameType r) = k)) as [<- | Hne].
        -- intros _. apply GameType_key_games.
        -- rewrite lookup_insert_ne by done. apply Hs.
      * apply list_elem_of_singleton in Hu as ->. apply Hs.
    + unfold buyItem_updates in Hu. destruct (_ && _).
      * apply list_elem_of_singleton in Hu as ->. apply Hs.
      * destruct (includes _ _).
        -- apply list_elem_of_singleton in Hu as ->. apply Hs.
        -- by apply elem_of_nil in Hu.
    + apply list_elem_of_singleton in Hu as ->. simpl.
      rewrite lookup_empty. by intros [? ?].
Qed.

Lemma size_game_keys :
  size (list_to_set (GameType_key <$> games) : gset string) = 4%nat.
Proof.
  rewrite size_list_to_set; [done |].
  apply (bool_decide_unpack _). by vm_compute.
Qed.

(** X12. In a state the App reaches, [hasDiamondSword] is true exactly when
    every one of the four games has a best test score recorded and that
    score is 90 or more. *)
Theorem hasDiamondSword_iff (st : AppState) :
  reachable st →
  hasDiamondSword st = true
  ↔ ∀ t, ∃ s, testScores st !! GameType_key t = Some s ∧ 90 ≤ s.
Proof.
  intros Hr. unfold hasDiamondSword, Object_values, Object_keys.
  rewrite andb_true_iff, forallb_forall, length_fmap, length_map_to_list.
  rewrite <- (size_dom (D := gset string)), Z.geb_le.
  assert (dom (testScores st)
          ⊆ (list_to_set (GameType_key <$> games) : gset string)) as Hsub.
  { intros k Hk. apply elem_of_dom in Hk. apply elem_of_list_to_set.
    by apply (reachable_testScores_keys st). }
  split.
  - intros [Hall Hsize] t.
    assert (dom (testScores st)
            = (list_to_set (GameType_key <$> games) : gset string)) as Hdom.
    { apply set_subseteq_size_eq; [done |]. rewrite size_game_keys. lia. }
    assert (is_Some (testScores st !! GameType_key t)) as [s Hs].
    { apply elem_of_dom. rewrite Hdom. apply elem_of_list_to_set.
      apply GameType_key_games. }
    exists s. split; [done |]. apply Z.geb_le, Hall.
    apply list_elem_of_In, list_elem_of_fmap.
    exists (GameType_key t, s). split; [done |]. by apply elem_of_map_to_list.
  - intros Hall. split.
    + intros s Hs. apply list_elem_of_In, list_elem_of_fmap in Hs
        as ([k s'] & -> & Hks). simpl. apply elem_of_map_to_list in Hks.
      assert (k ∈ GameType_key <$> games) as Hk
        by (by apply (reachable_testScores_keys st)).
      apply list_elem_of_fmap in Hk as (t & -> & _).
      destruct (Hall t) as (s & Hs & Hge). apply Z.geb_le. congruence.
    + assert ((list_to_set (GameType_key <$> games) : gset string)
              ⊆ dom (testScores st)) as Hsup.
      { intros k Hk. apply elem_of_list_to_set, list_elem_of_fmap in Hk
          as (t & -> & _). apply elem_of_dom.
        destruct (Hall t) as (s & -> & _). done. }
      apply subseteq_size in Hsup. rewrite size_game_keys in Hsup. lia.
Qed.

Lemma hasDiamondSword_iff_witness :
  let test (t : GameType) :=
    Complete true (finalResult true INITIAL_SETTINGS 10 0 t) in
  let st := run (test <$> games) INITIAL_STATE in
  hasDiamondSword st = true
  ↔ ∀ t, ∃ s, testScores st !! GameType_key t = Some s ∧ 90 ≤ s.
Proof.
  intros test st. apply (hasDiamondSword_iff st).
  apply reachable_run; [apply reachable_init |].
  repeat constructor; vm_compute; discriminate.
Defined.

(** ** Play Again *)



(** ** GameScreen sessions *)

Section Session.
Variables (type : GameType) (mode : PlayMode) (isTest : bool)
  (settings : Settings).

Lemma GameScreen_play_cons (i : ScreenInput) (rest : list ScreenInput)
    (g : GameScreenState) :
  GameScreen_play type mode isTest settings (i :: rest) g
  = ((GameScreen_play type mode isTest settings rest
        (GameScreen_input type mode isTest settings i g).1).1,
     (GameScreen_input type mode isTest settings i g).2
     :: (GameScreen_play type mode isTest settings rest
           (GameScreen_input type mode isTest settings i g).1).2).
Proof. reflexivity. Qed.

End Session.

Lemma correct_answers_cons (i : ScreenInput) (inputs : list ScreenInput) :
  correct_answers (i :: inputs)
  = (if decide (i = Answer true) then 1 else 0) + correct_answers inputs.
Proof.
  unfold correct_answers. rewrite filter_cons.
  destruct (decide (i = Answer true)); simpl length; lia.
Qed.

Lemma wrong_answers_cons (i : ScreenInput) (inputs : list ScreenInput) :
  wrong_answers (i :: inputs)
  = (if decide (i = Answer false) then 1 else 0) + wrong_answers inputs.
Proof.
  unfold wrong_answers. rewrite filter_cons.
  destruct (decide (i = Answer false)); simpl length; lia.
Qed.

Lemma quits_of_cons (e : AnswerEffect) (effects : list AnswerEffect) :
  quits_of (e :: effects) = (if is_quit e then 1 else 0) + quits_of effects.
Proof.
  unfold quits_of. rewrite filter_cons.
  destruct (is_quit e); simpl; lia.
Qed.

(** X14. A practice session in the TIMED or the FREE mode never hands over
    a result and never quits by itself, whatever the answers and however
    long it lasts: only the STREAK mode completes a practice session, so
    only STREAK sessions count towards the lock. *)
Theorem practice_without_streak_never_completes (type : GameType)
    (mode : PlayMode) (settings : Settings) (inputs : list ScreenInput)
    (g : GameScreenState) :
  mode ≠ STREAK →
  results_of (GameScreen_play type mode false settings inputs g).2 = []
  ∧ quits_of (GameScreen_play type mode false settings inputs g).2 = 0.
Proof.
  intros Hmode. revert g. induction inputs as [| i inputs IH]; intros g.
  - done.
  - rewrite GameScreen_play_cons. cbn [snd].
    assert ((GameScreen_input type mode false settings i g).2 = NoEffect)
      as ->.
    { destruct i as [[] |]; simpl; [| | done].
      - unfold handleAnswer. simpl.
        by rewrite bool_decide_eq_false_2.
      - unfold handleAnswer. by rewrite decide_False. }
    destruct (IH (GameScreen_input type mode false settings i g).1)
      as [Hres Hquit].
    split; [exact Hres |]. rewrite quits_of_cons. simpl. lia.
Qed.

Lemma practice_without_streak_never_completes_witness :
  let inputs := replicate 25 (Answer true) ++ [Tick; Answer false] in
  let g := GameScreen_init TIMED false INITIAL_SETTINGS in
  results_of (GameScreen_play DOUBLES TIMED false INITIAL_SETTINGS inputs g).2
  = []
  ∧ quits_of (GameScreen_play DOUBLES TIMED false INITIAL_SETTINGS inputs g).2
    = 0.
Proof.
  intros inputs g.
  apply (practice_without_streak_never_completes DOUBLES TIMED
           INITIAL_SETTINGS inputs g).
  discriminate.
Defined.

(** *** Tests *)

(** In a test the question index follows the correct answers up to 9 and
    stays there. *)
Lemma test_input (type : GameType) (mode : PlayMode) (settings : Settings)
    (i : ScreenInput) (g : GameScreenState) :
  qIndex g = Z.min (correctCount g) 9 →
  let step := GameScreen_input type mode true settings i g in
  qIndex step.1 = Z.min (correctCount step.1) 9
  ∧ correctCount step.1
    = correctCount g + (if decide (i = Answer true) then 1 else 0)
  ∧ results_of [step.2]
    = (if decide (i = Answer true) then
         if 9 <=? correctCount g then
           [finalResult true settings (correctCount g + 1) (timeLeft g) type]
         else []
       else []).
Proof.
  intros Hq. destruct i as [[] |]; simpl.
  - unfold handleAnswer. rewrite Hq.
    destruct (Z.leb_spec 9 (correctCount g)) as [Hc | Hc].
    + rewrite Z.min_r by lia. simpl. split; [lia |]. done.
    + rewrite Z.min_l by lia.
      assert ((correctCount g + 1 >=? 10) = false) as ->
        by (rewrite Z.geb_leb; apply Z.leb_gt; lia).
      assert ((correctCount g + 1 >=? 20) = false) as ->
        by (rewrite Z.geb_leb; apply Z.leb_gt; lia).
      rewrite andb_false_r. simpl. split; [lia |]. split; [lia | done].
  - unfold handleAnswer. destruct (decide (mode = STREAK)); simpl.
    + split; [done |]. split; [lia |]. by destruct (gs_hearts g <=? 1).
    + split; [done |]. split; [lia | done].
  - unfold timer_runs, tick. simpl. split; [done |]. split; [lia | done].
Qed.

Lemma results_of_cons (e : AnswerEffect) (effects : list AnswerEffect) :
  results_of (e :: effects) = results_of [e] ++ results_of effects.
Proof. unfold results_of. simpl. by destruct e. Qed.

Lemma test_results_from (type : GameType) (mode : PlayMode)
    (settings : Settings) (inputs : list ScreenInput) (g : GameScreenState) :
  qIndex g = Z.min (correctCount g) 9 →
  let c := correctCount g in
  let rs := results_of (GameScreen_play type mode true settings inputs g).2 in
  length rs = Z.to_nat (c + correct_answers inputs - Z.max 9 c)
  ∧ Forall (λ r, rating r = Diamond ∧ gameType r = type) rs
  ∧ (c ≤ 9 → ∀ r, head rs = Some r → score r = 100).
Proof.
  revert g. induction inputs as [| i inputs IH]; intros g Hq c rs.
  - unfold rs, correct_answers. simpl.
    split; [lia |]. split; [constructor | done].
  - unfold rs. rewrite GameScreen_play_cons. cbn [snd].
    rewrite results_of_cons.
    destruct (test_input type mode settings i g Hq) as (Hq' & Hc' & Hres).
    destruct (IH _ Hq') as (IHlen & IHall & IHhead).
    rewrite Hres, length_app, IHlen, Hc', correct_answers_cons.
    rewrite Hc' in IHhead. fold c in IHhead |- *.
    clear Hres IH IHlen Hc' Hq'.
    assert (0 ≤ correct_answers inputs) as Hn
      by (unfold correct_answers; lia).
    destruct (decide (i = Answer true)) as [-> | Hi].
    + destruct (Z.leb_spec 9 c) as [Hc | Hc].
      * split; [simpl; lia |]. split.
        -- apply Forall_app. split; [| done].
           apply Forall_singleton. unfold finalResult. cbn [rating gameType].
           split; [| done].
           apply GameScreen_rating_tiers. lia.
        -- intros Hc9 r [= <-]. unfold finalResult. cbn [score]. lia.
      * split; [simpl; lia |]. split; [done |].
        intros _. apply IHhead. lia.
    + split; [simpl; lia |]. split; [done |].
      intros Hc9. apply IHhead. lia.
Qed.

(** X15. A test hands over no result before the tenth correct answer. It
    hands over its first result at the tenth correct answer, with the score
    100 whatever the number of wrong answers before it, and one more result
    for every further correct answer. Every result is rated Diamond. *)
Theorem test_session_results (type : GameType) (mode : PlayMode)
    (settings : Settings) (inputs : list ScreenInput) :
  let rs := results_of (GameScreen_play type mode true settings inputs
                          (GameScreen_init mode true settings)).2 in
  length rs = Z.to_nat (correct_answers inputs - 9)
  ∧ Forall (λ r, rating r = Diamond ∧ gameType r = type) rs
  ∧ (∀ r, head rs = Some r → score r = 100).
Proof.
  intros rs.
  destruct (test_results_from type mode settings inputs
              (GameScreen_init mode true settings)) as (Hlen & Hall & Hhead);
    [done |].
  split; [| split; [exact Hall | apply Hhead; simpl; lia]].
  unfold rs. rewrite Hlen.
  change (correctCount (GameScreen_init mode true settings)) with 0. lia.
Qed.

Lemma test_session_results_witness :
  let inputs :=
    replicate 9 (Answer true) ++ [Answer false; Tick; Answer false]
    ++ replicate 2 (Answer true) in
  let rs :=
    results_of (GameScreen_play COUNT_UP TIMED true INITIAL_SETTINGS inputs
                  (GameScreen_init TIMED true INITIAL_SETTINGS)).2 in
  let r := finalResult true INITIAL_SETTINGS 10 59 COUNT_UP in
  length rs = 2%nat ∧ head rs = Some r ∧ score r = 100.
Proof.
  intros inputs rs r.
  destruct (test_session_results COUNT_UP TIMED INITIAL_SETTINGS inputs)
    as (Hlen & _ & Hhead).
  assert (head rs = Some r) as Hr by (vm_compute; reflexivity).
  split; [exact Hlen |]. split; [exact Hr |]. apply Hhead. exact Hr.
Defined.

(** *** The STREAK mode *)

Lemma streak_input (type : GameType) (settings : Settings)
    (i : ScreenInput) (g : GameScreenState) :
  let step := GameScreen_input type STREAK false settings i g in
  correctCount step.1
  = correctCount g + (if decide (i = Answer true) then 1 else 0)
  ∧ gs_hearts step.1
    = gs_hearts g - (if decide (i = Answer false) then 1 else 0)
  ∧ step.2
    = match i with
      | Answer true =>
          if 19 <=? correctCount g
          then OnComplete (finalResult false settings 0 0 type)
          else NoEffect
      | Answer false => if gs_hearts g <=? 1 then OnQuit else NoEffect
      | Tick => NoEffect
      end.
Proof.
  destruct i as [[] |]; simpl.
  - unfold handleAnswer. simpl.
    destruct (Z.leb_spec 19 (correctCount g)) as [Hc | Hc].
    + assert ((correctCount g + 1 >=? 20) = true) as ->
        by (rewrite Z.geb_leb; apply Z.leb_le; lia).
      simpl. split; [lia |]. split; [lia | done].
    + assert ((correctCount g + 1 >=? 20) = false) as ->
        by (rewrite Z.geb_leb; apply Z.leb_gt; lia).
      simpl. split; [lia |]. split; [lia | done].
  - unfold handleAnswer. simpl. split; [lia |]. split; [lia | done].
  - split; [lia |]. split; [lia | done].
Qed.

Lemma streak_from (type : GameType) (settings : Settings)
    (inputs : list ScreenInput) (g : GameScreenState) :
  let played := GameScreen_play type STREAK false settings inputs g in
  let c := correctCount g in
  let h := gs_hearts g in
  results_of played.2
  = replicate (Z.to_nat (c + correct_answers inputs - Z.max 19 c))
      (finalResult false settings 0 0 type)
  ∧ gs_hearts played.1 = h - wrong_answers inputs
  ∧ quits_of played.2 = Z.max 0 (wrong_answers inputs - Z.max h 1 + 1).
Proof.
  revert g. induction inputs as [| i inputs IH]; intros g played c h.
  - unfold played, correct_answers, wrong_answers, quits_of. simpl.
    replace (Z.to_nat _) with 0%nat by lia.
    split; [done |]. split; lia.
  - unfold played. rewrite GameScreen_play_cons. cbn [fst snd].
    destruct (streak_input type settings i g) as (Hc & Hh & Heff).
    destruct (IH (GameScreen_input type STREAK false settings i g).1)
      as (IHr & IHh & IHq).
    rewrite results_of_cons, quits_of_cons, IHr, IHh, IHq, Hc, Hh, Heff.
    rewrite correct_answers_cons, wrong_answers_cons. fold c h.
    assert (0 ≤ correct_answers inputs) by (unfold correct_answers; lia).
    assert (0 ≤ wrong_answers inputs) by (unfold wrong_answers; lia).
    clear IH IHr IHh IHq Hc Hh Heff.
    destruct i as [[] |].
    + rewrite decide_True by done. rewrite decide_False by done.
      destruct (Z.leb_spec 19 c) as [Hc | Hc]; simpl.
      * split; [| split; lia].
        replace (Z.to_nat (c + (1 + correct_answers inputs) - Z.max 19 c))
          with (S (Z.to_nat (c + 1 + correct_answers inputs
                             - Z.max 19 (c + 1)))) by lia.
        done.
      * split; [| split; lia]. f_equal. lia.
    + rewrite decide_False by done. rewrite decide_True by done.
      destruct (Z.leb_spec h 1); simpl;
        (split; [f_equal; lia |]); split; lia.
    + rewrite !decide_False by done.
      split; [simpl; f_equal; lia |]. split; simpl; lia.
Qed.

(** X16. A practice session in the STREAK mode counts the correct answers
    of the whole session, not a run of them: a wrong answer takes a heart
    and leaves the count, the result (score 100, Diamond) is handed over at
    the twentieth correct answer and once more for every correct answer
    after it, and [onQuit] is scheduled at the third wrong answer and at
    every one after it. *)
Theorem streak_session (type : GameType) (settings : Settings)
    (inputs : list ScreenInput) :
  let played :=
    GameScreen_play type STREAK false settings inputs
      (GameScreen_init STREAK false settings) in
  results_of played.2
  = replicate (Z.to_nat (correct_answers inputs - 19))
      {| score := 100; rating := Diamond; time := 0; gameType := type |}
  ∧ gs_hearts played.1 = 3 - wrong_answers inputs
  ∧ quits_of played.2 = Z.max 0 (wrong_answers inputs - 2).
Proof.
  intros played.
  destruct (streak_from type settings inputs
              (GameScreen_init STREAK false settings)) as (Hr & Hh & Hq).
  fold played in Hr, Hh, Hq. rewrite Hr, Hh, Hq. simpl.
  split; [f_equal; lia |]. split; lia.
Qed.

(** *** The clock *)

Lemma ticks_cons (i : ScreenInput) (inputs : list ScreenInput) :
  ticks (i :: inputs) = (if decide (i = Tick) then 1 else 0) + ticks inputs.
Proof.
  unfold ticks. rewrite filter_cons.
  destruct (decide (i = Tick)); simpl length; lia.
Qed.

Lemma clock_input (type : GameType) (mode : PlayMode) (isTest : bool)
    (settings : Settings) (i : ScreenInput) (g : GameScreenState) :
  timeLeft (GameScreen_input type mode isTest settings i g).1
  = if decide (i = Tick) then
      if timer_runs mode isTest then Z.max 0 (timeLeft g - 1) else timeLeft g
    else timeLeft g.
Proof.
  destruct i as [correct |]; simpl.
  - unfold handleAnswer. destruct correct.
    + by destruct (_ || _).
    + by destruct (decide (mode = STREAK)).
  - destruct (timer_runs mode isTest); [| done]. simpl.
    destruct (Z.gtb_spec (timeLeft g) 0); lia.
Qed.

Lemma clock_from (type : GameType) (mode : PlayMode) (isTest : bool)
    (settings : Settings) (inputs : list ScreenInput) (g : GameScreenState) :
  timer_runs mode isTest = true →
  0 ≤ timeLeft g →
  timeLeft (GameScreen_play type mode isTest settings inputs g).1
  = Z.max 0 (timeLeft g - ticks inputs).
Proof.
  intros Hruns. revert g.
  induction inputs as [| i inputs IH]; intros g Hpos.
  - unfold ticks. simpl. lia.
  - rewrite GameScreen_play_cons. cbn [fst].
    pose proof (clock_input type mode isTest settings i g) as Hstep.
    rewrite Hruns in Hstep.
    assert (0 ≤ ticks inputs) by (unfold ticks; lia).
    rewrite IH, Hstep, ticks_cons; destruct (decide (i = Tick)); lia.
Qed.

Lemma test_times_from (type : GameType) (mode : PlayMode)
    (settings : Settings) (inputs : list ScreenInput) (g : GameScreenState)
    (r : TestResult) :
  0 ≤ timeLeft g ≤ testTimer settings →
  r ∈ results_of (GameScreen_play type mode true settings inputs g).2 →
  0 ≤ time r ≤ testTimer settings.
Proof.
  revert g. induction inputs as [| i inputs IH]; intros g Hg.
  - by intros ?%elem_of_nil.
  - rewrite GameScreen_play_cons. cbn [snd]. rewrite results_of_cons.
    intros [Hr | Hr]%elem_of_app.
    + destruct i as [[] |]; simpl in Hr.
      * unfold handleAnswer in Hr. destruct (_ || _); simpl in Hr.
        -- apply list_elem_of_singleton in Hr as ->. simpl. lia.
        -- by apply elem_of_nil in Hr.
      * unfold handleAnswer in Hr.
        destruct (decide (mode = STREAK)); simpl in Hr;
          [destruct (gs_hearts g <=? 1) |]; by apply elem_of_nil in Hr.
      * by apply elem_of_nil in Hr.
    + apply (IH (GameScreen_input type mode true settings i g).1); [| done].
      rewrite clock_input. destruct (decide (i = Tick)); [| done].
      destruct (timer_runs mode true); lia.
Qed.

(** X17. Where the clock runs (a test, or a practice session in the TIMED
    mode), the time left after a session is the time the screen started
    with less the seconds that passed, and 0 once they are used up: it never
    goes below 0 and reaching 0 ends nothing. The time written into a test
    result lies between 0 and the test timer. *)
Theorem session_clock (type : GameType) (mode : PlayMode) (isTest : bool)
    (settings : Settings) (inputs : list ScreenInput) (r : TestResult) :
  timer_runs mode isTest = true →
  0 ≤ testTimer settings → 0 ≤ sessionTimer settings →
  let g := GameScreen_init mode isTest settings in
  timeLeft (GameScreen_play type mode isTest settings inputs g).1
  = Z.max 0 (timeLeft g - ticks inputs)
  ∧ (isTest = true →
     r ∈ results_of (GameScreen_play type mode isTest settings inputs g).2 →
     0 ≤ time r ≤ testTimer settings).
Proof.
  intros Hruns Htest Hsession g. split.
  - apply clock_from; [done |]. unfold g. simpl. destruct isTest; lia.
  - intros ->. apply test_times_from. unfold g. simpl. lia.
Qed.

Lemma session_clock_witness :
  let inputs := replicate 10 (Answer true) ++ replicate 70 Tick in
  let g := GameScreen_init TIMED true INITIAL_SETTINGS in
  let r := finalResult true INITIAL_SETTINGS 10 60 COUNT_UP in
  timeLeft (GameScreen_play COUNT_UP TIMED true INITIAL_SETTINGS inputs g).1
  = Z.max 0 (timeLeft g - ticks inputs)
  ∧ 0 ≤ time r ≤ testTimer INITIAL_SETTINGS.
Proof.
  intros inputs g r.
  destruct (session_clock COUNT_UP TIMED true INITIAL_SETTINGS inputs r)
    as [Hleft Htime]; [reflexivity | vm_compute; discriminate
                      | vm_compute; discriminate |].
  split; [exact Hleft |]. apply Htime; [reflexivity |].
  vm_compute. left.
Defined.

(** ** The questions of GameLogic *)

Lemma Set_from_distinct (a b c : Z) :
  a ≠ b → a ≠ c → b ≠ c → Set_from [a; b; c] = [a; b; c].
Proof.
  intros Hab Hac Hbc. unfold Set_from, includes_num. simpl.
  assert (b ∉ [a]) as Hb.
  { apply not_elem_of_cons. split; [congruence | apply not_elem_of_nil]. }
  assert (c ∉ [a; b]) as Hc.
  { rewrite !not_elem_of_cons.
    repeat split; [congruence | congruence | apply not_elem_of_nil]. }
  rewrite (bool_decide_eq_false_2 (b ∈ [a])) by done. simpl.
  by rewrite (bool_decide_eq_false_2 (c ∈ [a; b])) by done.
Qed.

Lemma fill_choices_full (extras : list Z) (a b c : Z) :
  fill_choices extras [a; b; c] = [a; b; c].
Proof. by destruct extras. Qed.

(** X18. With its draws in their ranges, a MAKE_TEN question has between 1
    and 8 blocks, asks for what is missing to 10, and offers three distinct
    choices, the answer and its two neighbours, without ever drawing an
    extra choice; [handleChoice] accepts the answer and nothing else, and
    shows ten blocks once it is given. *)
Theorem make_ten_question (settings : Settings) (draws : Draws)
    (s : LogicState) :
  draws_in_range MAKE_TEN settings draws →
  let s' := generateQuestion MAKE_TEN settings draws s in
  ∃ have need,
    question s' = Some (MakeTenQ have need)
    ∧ 1 ≤ have ≤ 8 ∧ have + need = 10
    ∧ userInput s' = Some have
    ∧ choices s' ≡ₚ [need; need + 1; need - 1]
    ∧ (∀ val, (handleChoice MAKE_TEN val s').2
              = Some (bool_decide (val = need)))
    ∧ userInput (handleChoice MAKE_TEN need s').1 = Some 10.
Proof.
  intros [Hshuffle Hdraw] s'. simpl in Hdraw.
  exists (draw_have draws + 1), (10 - (draw_have draws + 1)).
  unfold s', generateQuestion. cbn [question userInput choices].
  split; [done |]. split; [lia |]. split; [lia |]. split; [done |].
  split; [| split].
  - rewrite Hshuffle, !Z.max_r by lia.
    by rewrite Set_from_distinct, fill_choices_full by lia.
  - intros val. unfold handleChoice. cbn [question question_need].
    rewrite bool_decide_eq_true_2 by done.
    destruct (decide (val = 10 - (draw_have draws + 1))) as [-> | Hne].
    + by rewrite !bool_decide_eq_true_2.
    + rewrite !bool_decide_eq_false_2; [done | done | congruence].
  - unfold handleChoice. cbn [question question_need].
    by rewrite !bool_decide_eq_true_2.
Qed.

Lemma make_ten_question_witness :
  let draws :=
    {| draw_have := 6; draw_double := 0; draw_near := false;
       draw_up := false; draw_sub := false; draw_start := 0; draw_jump := 0;
       draw_end := 0; draw_back := 0; draw_extras := [4; 4; 9];
       shuffle := reverse |} in
  let s' := generateQuestion MAKE_TEN INITIAL_SETTINGS draws LogicState_init
  in
  ∃ have need,
    question s' = Some (MakeTenQ have need)
    ∧ 1 ≤ have ≤ 8 ∧ have + need = 10
    ∧ userInput s' = Some have
    ∧ choices s' ≡ₚ [need; need + 1; need - 1]
    ∧ (∀ val, (handleChoice MAKE_TEN val s').2
              = Some (bool_decide (val = need)))
    ∧ userInput (handleChoice MAKE_TEN need s').1 = Some 10.
Proof.
  intros draws.
  apply (make_ten_question INITIAL_SETTINGS draws LogicState_init).
  split; [intros l; apply reverse_Permutation | simpl; lia].
Defined.

(** X19. With its draws in their ranges, a DOUBLES question adds a number
    from 1 to half the range to itself, or to a neighbour of itself when
    the operations are mixed; its answer is the sum, at least 1; it offers
    three distinct choices, the answer and its two neighbours, and
    [handleChoice] accepts the answer and nothing else. *)
Theorem doubles_question (settings : Settings) (draws : Draws)
    (s : LogicState) :
  draws_in_range DOUBLES settings draws →
  let s' := generateQuestion DOUBLES settings draws s in
  ∃ a b ans,
    question s' = Some (DoublesQ a b ans)
    ∧ 1 ≤ a ≤ range settings / 2
    ∧ a - 1 ≤ b ≤ a + 1
    ∧ (ops settings ≠ mixed → b = a)
    ∧ ans = a + b ∧ 1 ≤ ans
    ∧ choices s' ≡ₚ [ans; ans + 1; ans - 1]
    ∧ (∀ val, (handleChoice DOUBLES val s').2
              = Some (bool_decide (val = ans))).
Proof.
  intros [Hshuffle Hdraw] s'. simpl in Hdraw.
  set (d := draw_double draws + 1).
  set (near := if bool_decide (ops settings = mixed) && draw_near draws
               then (if draw_up draws then 1 else -1) else 0).
  assert (-1 ≤ near ≤ 1) as Hnear.
  { unfold near. destruct (_ && _); [destruct (draw_up draws) |]; lia. }
  exists d, (d + near), (d + d + near).
  unfold s', generateQuestion. fold d near.
  cbn [question userInput choices].
  split; [done |]. split; [unfold d; lia |]. split; [lia |].
  split; [| split; [lia |]; split; [unfold d; lia |]; split].
  - intros Hops. unfold near. rewrite bool_decide_eq_false_2 by done.
    simpl. lia.
  - rewrite Hshuffle, Z.max_r by (unfold d; lia).
    by rewrite Set_from_distinct, fill_choices_full by lia.
  - intros val. unfold handleChoice. cbn [question question_ans].
    rewrite bool_decide_eq_false_2 by done.
    destruct (decide (val = d + d + near)) as [-> | Hne].
    + by rewrite !bool_decide_eq_true_2.
    + rewrite !bool_decide_eq_false_2; [done | done | congruence].
Qed.

Lemma doubles_question_witness :
  let settings :=
    {| range := 20; ops := mixed; sessionTimer := 5; testTimer := 60;
       soundOn := true; oneHandedMode := hand_off; assistMode := false |} in
  let draws :=
    {| draw_have := 0; draw_double := 9; draw_near := true;
       draw_up := false; draw_sub := false; draw_start := 0; draw_jump := 0;
       draw_end := 0; draw_back := 0; draw_extras := [];
       shuffle := reverse |} in
  let s' := generateQuestion DOUBLES settings draws LogicState_init in
  ∃ a b ans,
    question s' = Some (DoublesQ a b ans)
    ∧ 1 ≤ a ≤ range settings / 2
    ∧ a - 1 ≤ b ≤ a + 1
    ∧ (ops settings ≠ mixed → b = a)
    ∧ ans = a + b ∧ 1 ≤ ans
    ∧ choices s' ≡ₚ [ans; ans + 1; ans - 1]
    ∧ (∀ val, (handleChoice DOUBLES val s').2
              = Some (bool_decide (val = ans))).
Proof.
  intros settings draws.
  apply (doubles_question settings draws LogicState_init).
  split; [intros l; apply reverse_Permutation |].
  vm_compute. split; [discriminate | reflexivity].
Defined.

(** *** NUMBER_HOP *)

Lemma handleHop_ok (jumpVal : Z) (s : LogicState) :
  hop_ok s →
  hop_ok (handleHop jumpVal s).1
  ∧ question (handleHop jumpVal s).1 = question s
  ∧ ((handleHop jumpVal s).2 = None ∨ (handleHop jumpVal s).2 = Some true).
Proof.
  unfold hop_ok, handleHop.
  destruct (question s) as [[| | start jump target isSub |] |] eqn:Hq;
    try done.
  intros [Htarget Hpos].
  destruct (hopsLeft s <? jumpVal);
    [cbn [fst snd]; rewrite Hq; auto |].
  destruct (Z.eqb_spec (hopsLeft s - jumpVal) 0) as [Hzero | Hleft];
    cbn [fst snd question userInput hopsLeft].
  - split; [| split; [done |]].
    + split; [done |]. simpl. rewrite Hpos. destruct isSub; lia.
    + right. f_equal. apply bool_decide_eq_true_2.
      rewrite Hpos, Htarget. destruct isSub; lia.
  - split; [| split; [done | by left]].
    split; [done |]. simpl. rewrite Hpos. destruct isSub; lia.
Qed.

Lemma resetHop_ok (s : LogicState) :
  hop_ok s → hop_ok (resetHop s) ∧ question (resetHop s) = question s.
Proof.
  unfold hop_ok, resetHop.
  destruct (question s) as [[| | start jump target isSub |] |] eqn:Hq;
    try done.
  intros [Htarget Hpos]. cbn [question userInput hopsLeft].
  split; [| done]. split; [done |]. simpl. destruct isSub; lia.
Qed.

Lemma hops_all_correct (inputs : list HopInput) (s : LogicState) :
  hop_ok s → Forall (λ correct, correct = true) (hops inputs s).2.
Proof.
  revert s. induction inputs as [| [jumpVal |] inputs IH]; intros s Hok.
  - constructor.
  - cbn [hops snd].
    destruct (handleHop_ok jumpVal s Hok) as (Hok' & _ & [-> | ->]).
    + by apply IH.
    + constructor; [done | by apply IH].
  - cbn [hops]. apply IH. by apply resetHop_ok.
Qed.

Lemma hops_by_one (k : nat) (s : LogicState) :
  hop_ok s → hopsLeft s = Z.of_nat (S k) →
  (hops (replicate (S k) (Hop 1)) s).2 = [true].
Proof.
  revert s. induction k as [| k IH]; intros s Hok Hleft.
  - cbn [replicate hops snd]. unfold handleHop. unfold hop_ok in Hok.
    destruct (question s) as [[| | start jump target isSub |] |]; try done.
    destruct Hok as [Htarget Hpos]. rewrite Hleft. simpl.
    f_equal. apply bool_decide_eq_true_2. rewrite Hpos, Htarget, Hleft.
    destruct isSub; lia.
  - change (replicate (S (S k)) (Hop 1))
      with (Hop 1 :: replicate (S k) (Hop 1)).
    cbn [hops snd].
    destruct (handleHop_ok 1 s Hok) as (Hok' & _ & _).
    assert ((handleHop 1 s).2 = None
            ∧ hopsLeft (handleHop 1 s).1 = Z.of_nat (S k)) as [-> Hleft'].
    { unfold handleHop. unfold hop_ok in Hok.
      destruct (question s) as [[| | start jump target isSub |] |];
        try done.
      assert ((hopsLeft s <? 1) = false) as -> by (apply Z.ltb_ge; lia).
      assert ((hopsLeft s - 1 =? 0) = false) as ->
        by (apply Z.eqb_neq; lia).
      simpl. split; [done | lia]. }
    by apply IH.
Qed.

(** X20. With its draws in their ranges, a NUMBER_HOP question starts and
    lands on the number line from 0 to the range, with a jump of at least 1
    that goes backwards only when the operations allow it. Whatever hops
    and resets follow, the only answer [handleHop] ever reports is a
    correct one: the hops left are used up exactly on the target, so the
    wrong branch is never taken; and hopping by one, as many times as the
    jump says, reports the answer. *)
Theorem number_hop_question (settings : Settings) (draws : Draws)
    (s : LogicState) (inputs : list HopInput) :
  draws_in_range NUMBER_HOP settings draws →
  let s' := generateQuestion NUMBER_HOP settings draws s in
  ∃ start jump target isSub,
    question s' = Some (NumberHopQ start jump target isSub)
    ∧ 0 ≤ start ≤ range settings ∧ 0 ≤ target ≤ range settings
    ∧ 1 ≤ jump
    ∧ target = (if isSub then start - jump else start + jump)
    ∧ (ops settings = plus → isSub = false)
    ∧ Forall (λ correct, correct = true) (hops inputs s').2
    ∧ (hops (replicate (Z.to_nat jump) (Hop 1)) s').2 = [true].
Proof.
  intros [_ Hdraw] s'. simpl in Hdraw.
  set (isSub := if bool_decide (ops settings = mixed) then draw_sub draws
                else bool_decide (ops settings = minus)) in *.
  set (start := if isSub then draw_start draws + 3 else draw_start draws).
  set (jump := draw_jump draws + 1).
  set (target := if isSub then start - jump else start + jump).
  assert (hop_ok s' ∧ hopsLeft s' = jump) as [Hok Hleft].
  { unfold hop_ok, s', generateQuestion.
    cbn [question userInput hopsLeft]. fold isSub. fold start. fold jump.
    split; [| done]. split; [done |]. simpl. destruct isSub; lia. }
  exists start, jump, target, isSub.
  split; [done |].
  destruct Hdraw as [Hstart Hjump].
  split; [unfold start; destruct isSub; lia |].
  split; [unfold target, start, jump; destruct isSub; lia |].
  split; [unfold jump; destruct isSub; lia |].
  split; [done |].
  split.
  { intros Hops. unfold isSub. rewrite Hops.
    rewrite bool_decide_eq_false_2 by done.
    by rewrite bool_decide_eq_false_2. }
  split; [by apply hops_all_correct |].
  assert (∃ k, Z.to_nat jump = S k ∧ jump = Z.of_nat (S k)) as (k & -> & Hk).
  { exists (Z.to_nat (draw_jump draws)). unfold jump.
    destruct isSub; split; lia. }
  apply hops_by_one; [done |]. by rewrite Hleft.
Qed.

Lemma number_hop_question_witness :
  let settings :=
    {| range := 10; ops := minus; sessionTimer := 5; testTimer := 60;
       soundOn := true; oneHandedMode := hand_off; assistMode := false |} in
  let draws :=
    {| draw_have := 0; draw_double := 0; draw_near := false;
       draw_up := false; draw_sub := false; draw_start := 4; draw_jump := 6;
       draw_end := 0; draw_back := 0; draw_extras := [];
       shuffle := reverse |} in
  let inputs := [Hop 5; Hop 5; ResetHop; Hop 2; Hop 5] in
  let s' := generateQuestion NUMBER_HOP settings draws LogicState_init in
  ∃ start jump target isSub,
    question s' = Some (NumberHopQ start jump target isSub)
    ∧ 0 ≤ start ≤ range settings ∧ 0 ≤ target ≤ range settings
    ∧ 1 ≤ jump
    ∧ target = (if isSub then start - jump else start + jump)
    ∧ (ops settings = plus → isSub = false)
    ∧ Forall (λ correct, correct = true) (hops inputs s').2
    ∧ (hops (replicate (Z.to_nat jump) (Hop 1)) s').2 = [true].
Proof.
  intros settings draws inputs.
  apply (number_hop_question settings draws LogicState_init inputs).
  split; [intros l; apply reverse_Permutation |].
  vm_compute. repeat split; (discriminate || reflexivity).
Defined.

(** *** COUNT_UP *)

Lemma handleRescueHop_ok (jumpVal : Z) (s : LogicState) :
  rescue_ok s → 0 ≤ jumpVal →
  rescue_ok (handleRescueHop jumpVal s).1
  ∧ question (handleRescueHop jumpVal s).1 = question s.
Proof.
  unfold rescue_ok, handleRescueHop.
  destruct (question s) as [[| | | start end_ ans] |] eqn:Hq; try done.
  intros Hpos Hjump.
  destruct (Z.eqb_spec (or0 (userInput s) + jumpVal) end_) as [Hend | Hne];
    cbn [fst question userInput];
    [rewrite ?Hq; simpl; split; [lia | done] |].
  destruct (Z.gtb_spec (or0 (userInput s) + jumpVal) end_);
    cbn [fst question userInput]; rewrite ?Hq; simpl; split; (lia || done).
Qed.

Lemma rescue_hops_ok (jumps : list Z) (s : LogicState) :
  rescue_ok s → Forall (λ jumpVal, 0 ≤ jumpVal) jumps →
  rescue_ok (rescue_hops jumps s).1
  ∧ question (rescue_hops jumps s).1 = question s.
Proof.
  revert s. induction jumps as [| jumpVal jumps IH]; intros s Hok Hall;
    [done |].
  apply Forall_cons in Hall as [Hjump Hall]. cbn [rescue_hops fst].
  destruct (handleRescueHop_ok jumpVal s Hok Hjump) as [Hok' Hq'].
  destruct (IH _ Hok' Hall) as [Hok'' Hq'']. split; [done | congruence].
Qed.

Lemma rescue_hops_cons (jumpVal : Z) (rest : list Z) (s : LogicState) :
  rescue_hops (jumpVal :: rest) s
  = ((rescue_hops rest (handleRescueHop jumpVal s).1).1,
     match (handleRescueHop jumpVal s).2 with
     | Some correct => correct :: (rescue_hops rest
                                     (handleRescueHop jumpVal s).1).2
     | None => (rescue_hops rest (handleRescueHop jumpVal s).1).2
     end).
Proof. reflexivity. Qed.

(** The three outcomes of a rescue hop. *)
Lemma handleRescueHop_cases (jumpVal : Z) (s : LogicState)
    (start end_ ans : Z) :
  question s = Some (CountUpQ start end_ ans) →
  let nextPos := or0 (userInput s) + jumpVal in
  (nextPos = end_ →
   (handleRescueHop jumpVal s).2 = Some true
   ∧ question (handleRescueHop jumpVal s).1 = question s
   ∧ or0 (userInput (handleRescueHop jumpVal s).1) = end_)
  ∧ (end_ < nextPos →
     (handleRescueHop jumpVal s).2 = Some false
     ∧ (handleRescueHop jumpVal s).1 = s)
  ∧ (nextPos < end_ →
     (handleRescueHop jumpVal s).2 = None
     ∧ question (handleRescueHop jumpVal s).1 = question s
     ∧ or0 (userInput (handleRescueHop jumpVal s).1) = nextPos).
Proof.
  intros Hq nextPos. unfold handleRescueHop. rewrite Hq. fold nextPos.
  split; [| split]; intros Hcmp.
  - assert ((nextPos =? end_) = true) as -> by (apply Z.eqb_eq; lia).
    simpl. by rewrite Hcmp.
  - assert ((nextPos =? end_) = false) as -> by (apply Z.eqb_neq; lia).
    assert ((nextPos >? end_) = true) as -> by (apply Z.gtb_lt; lia).
    done.
  - assert ((nextPos =? end_) = false) as -> by (apply Z.eqb_neq; lia).
    assert ((nextPos >? end_) = false) as ->
      by (rewrite Z.gtb_ltb; apply Z.ltb_ge; lia).
    done.
Qed.

Lemma rescue_by_one (k : nat) (s : LogicState) (start end_ ans : Z) :
  question s = Some (CountUpQ start end_ ans) →
  or0 (userInput s) + Z.of_nat (S k) = end_ →
  (rescue_hops (replicate (S k) 1) s).2 = [true]
  ∧ (rescue_hops (replicate (S k) 1 ++ [1]) s).2 = [true; false].
Proof.
  revert s. induction k as [| k IH]; intros s Hq Hpos.
  - cbn [replicate app].
    destruct (handleRescueHop_cases 1 s start end_ ans Hq)
      as (Hend & _ & _).
    destruct Hend as (Heff & Hq' & Hpos'); [lia |].
    rewrite !rescue_hops_cons, Heff. cbn [snd].
    destruct (handleRescueHop_cases 1 (handleRescueHop 1 s).1 start end_ ans)
      as (_ & Hover & _); [congruence |].
    destruct Hover as (Heff' & _); [lia |].
    by rewrite Heff'.
  - change (replicate (S (S k)) 1) with (1 :: replicate (S k) 1).
    rewrite <- app_comm_cons, !rescue_hops_cons. cbn [snd].
    destruct (handleRescueHop_cases 1 s start end_ ans Hq)
      as (_ & _ & Hunder).
    destruct Hunder as (Heff & Hq' & Hpos'); [lia |].
    rewrite Heff. apply IH; [congruence | lia].
Qed.

(** X21. With its draws in their ranges, a COUNT_UP question counts up from
    a start that is not negative to an end at least 2 above it, and its
    answer is the distance. Whatever forward hops follow, the position
    stays between the start and the end; hopping by one, as many times as
    the answer says, reports a correct answer, and one more hop after that
    is reported as a wrong one. *)
Theorem count_up_question (settings : Settings) (draws : Draws)
    (s : LogicState) (jumps : list Z) :
  draws_in_range COUNT_UP settings draws →
  Forall (λ jumpVal, 0 ≤ jumpVal) jumps →
  let s' := generateQuestion COUNT_UP settings draws s in
  ∃ start end_ ans,
    question s' = Some (CountUpQ start end_ ans)
    ∧ 0 ≤ start ∧ 2 ≤ ans ∧ start + ans = end_ ∧ end_ ≤ 19
    ∧ (range settings = 10 → end_ ≤ 10)
    ∧ userInput s' = Some start
    ∧ start ≤ or0 (userInput (rescue_hops jumps s').1) ≤ end_
    ∧ (rescue_hops (replicate (Z.to_nat ans) 1) s').2 = [true]
    ∧ (rescue_hops (replicate (Z.to_nat ans) 1 ++ [1]) s').2
      = [true; false].
Proof.
  intros [_ [Hend Hback]] Hall s'.
  set (end_ := draw_end draws
               + (if bool_decide (range settings = 10) then 3 else 12)).
  set (base := Z.max 0 (end_ - (draw_back draws + 2))).
  assert (3 ≤ end_ ≤ 19) as Hend'
    by (unfold end_; destruct (bool_decide _); lia).
  exists base, end_, (end_ - base).
  assert (question s' = Some (CountUpQ base end_ (end_ - base))) as Hq
    by done.
  assert (userInput s' = Some base) as Hpos by done.
  split; [done |]. split; [unfold base; lia |].
  split; [unfold base; lia |]. split; [lia |]. split; [lia |].
  split.
  { intros Hrange. unfold end_. rewrite bool_decide_eq_true_2 by done. lia. }
  split; [done |]. split.
  - assert (rescue_ok s') as Hok.
    { unfold rescue_ok. rewrite Hq, Hpos. simpl. unfold base. lia. }
    destruct (rescue_hops_ok jumps s' Hok Hall) as [Hok' Hq'].
    unfold rescue_ok in Hok'. rewrite Hq', Hq in Hok'. done.
  - assert (∃ k, Z.to_nat (end_ - base) = S k
                 ∧ end_ - base = Z.of_nat (S k)) as (k & -> & Hk).
    { exists (Z.to_nat (end_ - base - 1)). unfold base. split; lia. }
    apply (rescue_by_one k s' base end_ (end_ - base)); [done |].
    rewrite Hpos. simpl. lia.
Qed.

Lemma count_up_question_witness :
  let draws :=
    {| draw_have := 0; draw_double := 0; draw_near := false;
       draw_up := false; draw_sub := false; draw_start := 0; draw_jump := 0;
       draw_end := 1; draw_back := 4; draw_extras := [];
       shuffle := reverse |} in
  let jumps := [2; 2; 1; 2] in
  let s' := generateQuestion COUNT_UP INITIAL_SETTINGS draws LogicState_init
  in
  ∃ start end_ ans,
    question s' = Some (CountUpQ start end_ ans)
    ∧ 0 ≤ start ∧ 2 ≤ ans ∧ start + ans = end_ ∧ end_ ≤ 19
    ∧ (range INITIAL_SETTINGS = 10 → end_ ≤ 10)
    ∧ userInput s' = Some start
    ∧ start ≤ or0 (userInput (rescue_hops jumps s').1) ≤ end_
    ∧ (rescue_hops (replicate (Z.to_nat ans) 1) s').2 = [true]
    ∧ (rescue_hops (replicate (Z.to_nat ans) 1 ++ [1]) s').2
      = [true; false].
Proof.
  intros draws jumps.
  apply (count_up_question INITIAL_SETTINGS draws LogicState_init jumps).
  - split; [intros l; apply reverse_Permutation |].
    vm_compute. repeat split; (discriminate || reflexivity).
  - repeat constructor; discriminate.
Defined.

(** ** The feedback message *)

(** X22. The message [FeedbackOverlay] picks is never the one it showed
    last: for a list of at least two messages and a draw within the list,
    the index it keeps is within the list and differs from the last one. *)
Theorem message_never_repeats (draw lastIndex len : Z) :
  2 ≤ len → 0 ≤ draw < len →
  nextMessageIndex draw lastIndex len ≠ lastIndex
  ∧ 0 ≤ nextMessageIndex draw lastIndex len < len.
Proof.
  intros Hlen Hdraw. unfold nextMessageIndex.
  destruct (Z.eqb_spec draw lastIndex) as [<- | Hne]; [| split; [done | lia]].
  destruct (decide (draw + 1 = len)) as [Hlast | Hmore].
  - rewrite Hlast, Z_mod_same_full. lia.
  - rewrite Z.mod_small by lia. lia.
Qed.

Lemma message_never_repeats_witness :
  nextMessageIndex 3 3 4 ≠ 3 ∧ 0 ≤ nextMessageIndex 3 3 4 < 4.
Proof. apply (message_never_repeats 3 3 4); lia. Defined.

(** ** The rating shown for a test *)

Lemma TestSelection_rating_mono (s1 s2 : Z) :
  s1 ≤ s2 →
  tier_rank (TestSelection_rating s1) ≤ tier_rank (TestSelection_rating s2).
Proof.
  intros Hle. unfold TestSelection_rating. case_geb; simpl; lia.
Qed.

(** X23. The rating [TestSelection] computes never goes down when the score
    goes up, and the score and the rating it shows for a game never go down
    over any sequence of completions and purchases (no reset); a game with
    no test recorded is shown with 0 and Wood. *)
Theorem rating_shown_never_drops (t : GameType) (events : list Event)
    (st : AppState) (s1 s2 : Z) :
  (s1 ≤ s2 →
   tier_rank (TestSelection_rating s1) ≤ tier_rank (TestSelection_rating s2))
  ∧ (testScores st !! GameType_key t = None →
     TestSelection_row (testScores st) t = (0, Wood))
  ∧ (Reset ∉ events →
     (TestSelection_row (testScores st) t).1
     ≤ (TestSelection_row (testScores (run events st)) t).1
     ∧ tier_rank (TestSelection_row (testScores st) t).2
       ≤ tier_rank (TestSelection_row (testScores (run events st)) t).2).
Proof.
  split; [apply TestSelection_rating_mono |]. split.
  - intros Hnone. unfold TestSelection_row. by rewrite Hnone.
  - intros Hreset. unfold TestSelection_row. cbn [fst snd].
    pose proof (run_testScores_mono events st (GameType_key t) Hreset).
    split; [done | by apply TestSelection_rating_mono].
Qed.

Lemma rating_shown_never_drops_witness :
  let st := completeGame true (finalResult true INITIAL_SETTINGS 10 0 DOUBLES)
              INITIAL_STATE in
  let events := [Complete true (finalResult true INITIAL_SETTINGS 8 0 DOUBLES);
                 Buy 10 "wood-tile"%string] in
  tier_rank (TestSelection_rating 74) ≤ tier_rank (TestSelection_rating 75)
  ∧ TestSelection_row (testScores INITIAL_STATE) COUNT_UP = (0, Wood)
  ∧ (TestSelection_row (testScores st) DOUBLES).1
    ≤ (TestSelection_row (testScores (run events st)) DOUBLES).1
  ∧ tier_rank (TestSelection_row (testScores st) DOUBLES).2
    ≤ tier_rank (TestSelection_row (testScores (run events st)) DOUBLES).2.
Proof.
  intros st events.
  destruct (rating_shown_never_drops DOUBLES events st 74 75)
    as (Hmono & _ & Hover).
  destruct (rating_shown_never_drops COUNT_UP [] INITIAL_STATE 0 0)
    as (_ & Hnone & _).
  split; [apply Hmono; lia |]. split; [apply Hnone; reflexivity |].
  apply Hover. intros Hin.
  repeat (apply elem_of_cons in Hin as [Hin | Hin]; [discriminate |]).
  by apply elem_of_nil in Hin.
Defined.
